(** * Keyword search over a directory of text files

    A shallow embedding of the two [TextSearcher] programs:

    - [text-searcher-1.py]: a thread pool whose workers merge every per-file
      result into the shared [self.results] dictionary under a lock
      (module [Threaded]);
    - [text-searcher-2.py]: one OS process per chunk, each sending its
      chunk-local dictionary through a queue to the parent, which merges them
      (module [Multiprocess]).

    Python values are modelled as follows: [str] is [string], a [set] of
    strings is a [gset string], a [dict] / [defaultdict(set)] from keyword to
    set of paths is a [gmap string (gset string)], [int] is [Z], a [list] is a
    [list].  The operating system (file contents, directory listing, number of
    CPUs) and [str.lower] are the fields of a [Platform] record.

    Code that can raise returns a [result]; the logger and standard output
    are lists of [event]s.  The threads of the first program are a step
    relation on the state of the pool, one step being one iteration of the
    loop of [process_files] (the update of [self.results] is atomic, it runs
    with the lock held), so that a call of [search_directory] stands for all
    interleavings.  In the second program the parent merges the dictionaries
    of its children in the order in which they arrive, which is any
    permutation.  Wall-clock time is only logged and is left out.

    The interactive part ([get_keywords_from_user],
    [get_directory_from_user], [main]) reads the user's input from a list of
    [key]s and returns what it printed; [str.strip] and [Path.exists] are the
    fields of a [Console] record. *)

From Stdlib Require Import ZArith String Ascii.
From stdpp Require Import gmap strings list fin_maps relations.

Local Open Scope Z_scope.
#[local] Set Warnings "-clear-no-such-hyp".

(** ** Exceptions and fallible computations *)

Inductive exn :=
  | ZeroDivisionError
  | ValueError
  | OSError
  | UnicodeDecodeError.

Inductive result (A : Type) :=
  | Return (a : A)
  | Raise (e : exn).
Arguments Return {A} a.
Arguments Raise {A} e.

Definition bind {A B} (m : result A) (f : A → result B) : result B :=
  match m with
  | Return a => f a
  | Raise e => Raise e
  end.

Notation "'let*' x ':=' m 'in' k" := (bind m (λ x, k))
  (at level 10, x name, m at level 100, k at level 200,
   format "'[v' 'let*'  x  ':='  m  'in' '/' k ']'").

(** ** What the programs write to the logger and to standard output *)

Inductive level := ERROR | WARNING | INFO.

Inductive message :=
  | FileFailed (filepath : string) (e : exn)
  | NoFilesFound (file_pattern directory : string)
  | ScanFailed (e : exn)
  | SearchFinished
  | FilesProcessed (n : nat).

Inductive event :=
  | Log (lvl : level) (m : message)
  | Print (m : message).

(** ** The platform *)

Record Platform := {
  (** [str.lower] *)
  lower : string → string;
  (** [open(filepath, 'r', encoding='utf-8')] followed by [file.read()] *)
  read_text : string → result string;
  (** [list(Path(directory).glob(file_pattern))], paths as [str(filepath)] *)
  glob : string → string → result (list string);
  (** [mp.cpu_count()] *)
  cpu_count : Z;
}.

(** ** Strings *)

(** [needle in haystack] on [str]: does [needle] start at some position of
    [haystack]. *)
Fixpoint str_in (needle haystack : string) : bool :=
  String.prefix needle haystack ||
  match haystack with
  | EmptyString => false
  | String _ rest => str_in needle rest
  end.

(** [str.lower] restricted to ASCII text, used to run the model on concrete
    inputs. *)
Definition ascii_lower (c : ascii) : ascii :=
  let n := nat_of_ascii c in
  if ((65 <=? n) && (n <=? 90))%nat then ascii_of_nat (n + 32) else c.

Fixpoint ascii_str_lower (s : string) : string :=
  match s with
  | EmptyString => EmptyString
  | String c rest => String (ascii_lower c) (ascii_str_lower rest)
  end.

(** ** Dictionaries of sets *)

(** [d[keyword].add(filepath)] on a [defaultdict(set)]. *)
Definition add_path (d : gmap string (gset string)) (keyword filepath : string)
    : gmap string (gset string) :=
  <[keyword := d !!! keyword ∪ {[filepath]}]> d.

(** [for keyword, files in local.items(): d[keyword].update(files)] on a
    [defaultdict(set)] [d]. *)
Definition merge_results (d local : gmap string (gset string))
    : gmap string (gset string) :=
  map_fold (λ keyword files acc, <[keyword := acc !!! keyword ∪ files]> acc)
           d local.

(** The body of the [with open(...)] block of [search_file], from the
    lowercased [content] on: the loop over the keywords. *)
Definition scan_content (W : Platform) (keywords : gset string)
    (filepath content : string) : gmap string (gset string) :=
  set_fold (λ keyword local_results,
              if str_in (lower W keyword) content
              then add_path local_results keyword filepath
              else local_results)
           ∅ keywords.

(** ** Splitting the file list into chunks *)

(** [a // b] *)
Definition floordiv (a b : Z) : result Z :=
  if decide (b = 0) then Raise ZeroDivisionError else Return (a `div` b).

(** [range(0, stop, step)] for [0 ≤ stop]: [ceil(stop / step)] indices
    [0, step, 2 * step, ...] when [step] is positive, none when it is
    negative, [ValueError] when it is zero. *)
Definition range0 (stop step : Z) : result (list nat) :=
  if decide (step = 0) then Raise ValueError
  else if decide (step < 0) then Return []
  else Return ((λ j, j * Z.to_nat step)%nat <$>
               seq 0 (Z.to_nat ((stop + step - 1) `div` step))).

(** [l[i:j]] for [0 ≤ i ≤ j]; a slice reaching past the end is cut short. *)
Definition slice {A} (l : list A) (i j : nat) : list A :=
  take (j - i) (drop i l).

(** [files_per_thread] / [files_per_process]. *)
Definition files_per_worker (all_files : list string) (num_workers : Z)
    : result Z :=
  let* q := floordiv (Z.of_nat (length all_files)) num_workers in
  Return (q + 1).

(** The list comprehension building [file_chunks]. *)
Definition file_chunks (all_files : list string) (num_workers : Z)
    : result (list (list string)) :=
  let* per_worker := files_per_worker all_files num_workers in
  let* starts := range0 (Z.of_nat (length all_files)) per_worker in
  Return ((λ i, slice all_files i (i + Z.to_nat per_worker)) <$> starts).

(** ** [text-searcher-1.py]: threads, a shared dictionary and a lock *)

Module Threaded.

Record TextSearcher := {
  keywords : gset string;
  num_threads : Z;
  results : gmap string (gset string);
}.

Definition default_num_threads : Z := 4.

Definition __init__ (keywords : list string) (num_threads : Z)
    : TextSearcher :=
  {| keywords := list_to_set keywords;
     num_threads := num_threads;
     results := ∅ |}.

(** Returns [local_results] and what was written to the logger. *)
Definition search_file (W : Platform) (self : TextSearcher)
    (filepath : string) : gmap string (gset string) * list event :=
  match read_text W filepath with
  | Return text =>
      (scan_content W (keywords self) filepath (lower W text), [])
  | Raise e => (∅, [Log ERROR (FileFailed filepath e)])
  end.

(** The threads of the pool: the files each submitted call of
    [process_files] has still to go through, the shared [self.results], and
    the logger output so far. *)
Record pool := {
  pending : list (list string);
  shared : gmap string (gset string);
  logged : list event;
}.

(** One iteration of the loop of [process_files] in the [i]-th call:
    [search_file] on the next file of that call, then the update of
    [self.results] with the lock held. *)
Inductive process_files_step (W : Platform) (self : TextSearcher)
    : pool → pool → Prop :=
  | process_next_file σ i filepath files :
      pending σ !! i = Some (filepath :: files) →
      process_files_step W self σ
        {| pending := <[i := files]> (pending σ);
           shared := merge_results (shared σ)
                       (search_file W self filepath).1;
           logged := logged σ ++ (search_file W self filepath).2 |}.

(** Every call of [process_files] has returned. *)
Definition joined (σ : pool) : Prop := Forall (λ files, files = []) (pending σ).

(** [ThreadPoolExecutor(max_workers=...)] *)
Definition ThreadPoolExecutor (max_workers : Z) : result unit :=
  if decide (max_workers ≤ 0) then Raise ValueError else Return tt.

(** The [try] block from the first file on, up to the submission of the
    chunks to the pool. *)
Definition submit (self : TextSearcher) (all_files : list string)
    : result (list (list string)) :=
  let* chunks := file_chunks all_files (num_threads self) in
  let* _ := ThreadPoolExecutor (num_threads self) in
  Return chunks.

(** The [try] block of [search_directory]: it either reaches one of its
    two [return] statements or raises; [self'] is the searcher and [log]
    the logger output at that point. *)
Inductive try_block (W : Platform) (self : TextSearcher)
    (directory file_pattern : string)
    : result (gmap string (gset string)) → TextSearcher → list event
      → Prop :=
  | listing_raises e :
      glob W directory file_pattern = Raise e →
      try_block W self directory file_pattern (Raise e) self []
  | no_files :
      glob W directory file_pattern = Return [] →
      try_block W self directory file_pattern
        (Return (results self)) self
        [Log WARNING (NoFilesFound file_pattern directory)]
  | submit_raises all_files e :
      glob W directory file_pattern = Return all_files →
      all_files ≠ [] →
      submit self all_files = Raise e →
      try_block W self directory file_pattern (Raise e) self []
  | pool_joined all_files chunks σ :
      glob W directory file_pattern = Return all_files →
      all_files ≠ [] →
      submit self all_files = Return chunks →
      rtc (process_files_step W self)
          {| pending := chunks; shared := results self; logged := [] |} σ →
      joined σ →
      try_block W self directory file_pattern
        (Return (shared σ))
        {| keywords := keywords self;
           num_threads := num_threads self;
           results := shared σ |}
        (logged σ ++ [Log INFO SearchFinished;
                      Log INFO (FilesProcessed (length all_files))]).

(** [search_directory self directory file_pattern ret self' log]: the call
    returns [ret], leaves the searcher as [self'] and logs [log].  The
    [except Exception] clause turns an exception of the [try] block into a
    logged error and the return of [dict(self.results)]. *)
Inductive search_directory (W : Platform) (self : TextSearcher)
    (directory file_pattern : string)
    : gmap string (gset string) → TextSearcher → list event → Prop :=
  | try_returns ret self' log :
      try_block W self directory file_pattern (Return ret) self' log →
      search_directory W self directory file_pattern ret self' log
  | except_Exception e self' log :
      try_block W self directory file_pattern (Raise e) self' log →
      search_directory W self directory file_pattern
        (results self') self' (log ++ [Log ERROR (ScanFailed e)]).

End Threaded.

(** ** [text-searcher-2.py]: processes and a queue *)

Module Multiprocess.

Record TextSearcher := {
  keywords : gset string;
  num_processes : Z;
}.

(** [num_processes or mp.cpu_count()]: [None] and [0] are falsy. *)
Definition __init__ (W : Platform) (keywords : list string)
    (num_processes : option Z) : TextSearcher :=
  {| keywords := list_to_set keywords;
     num_processes :=
       match num_processes with
       | Some n => if decide (n = 0) then cpu_count W else n
       | None => cpu_count W
       end |}.

(** Returns [dict(local_results)] and what was printed. *)
Definition search_file (W : Platform) (filepath : string)
    (keywords : gset string) : gmap string (gset string) * list event :=
  match read_text W filepath with
  | Return text => (scan_content W keywords filepath (lower W text), [])
  | Raise e => (∅, [Print (FileFailed filepath e)])
  end.

(** Returns the dictionary put on [result_queue] and what the process
    printed. *)
Definition process_files (W : Platform) (files : list string)
    (keywords : gset string) : gmap string (gset string) * list event :=
  foldl (λ acc filepath,
           let file_results := search_file W filepath keywords in
           (merge_results acc.1 file_results.1, acc.2 ++ file_results.2))
        (∅, []) files.

(** The loop over [range(len(processes))]: the dictionaries are merged in
    the order in which they come off the queue. *)
Definition collect (received : list (gmap string (gset string)))
    : gmap string (gset string) :=
  foldl merge_results ∅ received.

(** The [try] block of [search_directory]: it either reaches one of its
    two [return] statements or raises; [log] is the logger output at that
    point and [out] what each child process printed. *)
Inductive try_block (W : Platform) (self : TextSearcher)
    (directory file_pattern : string)
    : result (gmap string (gset string)) → list event → list (list event)
      → Prop :=
  | listing_raises e :
      glob W directory file_pattern = Raise e →
      try_block W self directory file_pattern (Raise e) [] []
  | no_files :
      glob W directory file_pattern = Return [] →
      try_block W self directory file_pattern
        (Return ∅) [Log WARNING (NoFilesFound file_pattern directory)] []
  | chunking_raises all_files e :
      glob W directory file_pattern = Return all_files →
      all_files ≠ [] →
      file_chunks all_files (num_processes self) = Raise e →
      try_block W self directory file_pattern (Raise e) [] []
  | processes_joined all_files chunks received :
      glob W directory file_pattern = Return all_files →
      all_files ≠ [] →
      file_chunks all_files (num_processes self) = Return chunks →
      received ≡ₚ (λ chunk, (process_files W chunk (keywords self)).1)
                    <$> chunks →
      try_block W self directory file_pattern
        (Return (collect received))
        [Log INFO SearchFinished;
         Log INFO (FilesProcessed (length all_files))]
        ((λ chunk, (process_files W chunk (keywords self)).2) <$> chunks).

(** [search_directory self directory file_pattern ret log out]: the call
    returns [ret], logs [log], and [out] is what each child process
    printed.  The [except Exception] clause turns an exception of the [try]
    block into a logged error and the return of an empty dictionary. *)
Inductive search_directory (W : Platform) (self : TextSearcher)
    (directory file_pattern : string)
    : gmap string (gset string) → list event → list (list event) → Prop :=
  | try_returns ret log out :
      try_block W self directory file_pattern (Return ret) log out →
      search_directory W self directory file_pattern ret log out
  | except_Exception e log out :
      try_block W self directory file_pattern (Raise e) log out →
      search_directory W self directory file_pattern
        ∅ (log ++ [Log ERROR (ScanFailed e)]) out.

End Multiprocess.

(** ** Vocabulary of the properties *)

(** The union of two sets of paths, as the value of a merged key. *)
Definition union_sets (a b : gset string) : option (gset string) :=
  Some (a ∪ b).

(** Keyword [keyword] is one of [keywords] and its lowercased form occurs in
    the lowercased text read from [filepath]. *)
Definition found (W : Platform) (keywords : gset string)
    (keyword filepath : string) : Prop :=
  keyword ∈ keywords ∧
  ∃ text, read_text W filepath = Return text ∧
          str_in (lower W keyword) (lower W text) = true.

(** The chunk size for a positive number of workers. *)
Definition chunk_size (n : nat) (num_workers : Z) : nat :=
  Z.to_nat (Z.of_nat n `div` num_workers + 1).

(** The number of chunks: [len(range(0, n, chunk_size))]. *)
Definition chunk_count (n : nat) (num_workers : Z) : nat :=
  Z.to_nat ((Z.of_nat n + Z.of_nat (chunk_size n num_workers) - 1)
            `div` Z.of_nat (chunk_size n num_workers)).

(** What all the files of [files] contribute to the shared dictionary. *)
Definition merged (scan : string → gmap string (gset string))
    (d : gmap string (gset string)) (files : list string)
    : gmap string (gset string) :=
  foldl merge_results d (scan <$> files).

(** The files of a directory listing; none when the listing fails. *)
Definition listed (W : Platform) (directory file_pattern : string)
    : list string :=
  match glob W directory file_pattern with
  | Return all_files => all_files
  | Raise _ => []
  end.

(** The files that get scanned: all of them with a positive number of
    workers, none otherwise. *)
Definition scanned (num_workers : Z) (all_files : list string) : list string :=
  if decide (1 ≤ num_workers) then all_files else [].

(** [filepath] is in the dictionary [ret] under the key [keyword]. *)
Definition in_result (ret : gmap string (gset string))
    (keyword filepath : string) : Prop :=
  ∃ files, ret !! keyword = Some files ∧ filepath ∈ files.

(** The file can be read and the lowercased keyword is a substring of its
    lowercased text. *)
Definition occurs (W : Platform) (keyword filepath : string) : Prop :=
  ∃ text pre post,
    read_text W filepath = Return text ∧
    lower W text = (pre +:+ lower W keyword +:+ post)%string.

(** No key of the dictionary is bound to the empty set. *)
Definition no_empty_entry (d : gmap string (gset string)) : Prop :=
  ∀ keyword files, d !! keyword = Some files → files ≠ ∅.

(** The searchers a program can hold: a new one, or one that has gone
    through a call of [search_directory]. *)
Inductive reachable (W : Platform) : Threaded.TextSearcher → Prop :=
  | reachable_init keywords num_threads :
      reachable W (Threaded.__init__ keywords num_threads)
  | reachable_call self directory file_pattern ret self' log :
      reachable W self →
      Threaded.search_directory W self directory file_pattern ret self' log →
      reachable W self'.

(** A small platform to run the model on. *)
Definition demo : Platform := {|
  lower := ascii_str_lower;
  read_text := λ filepath,
    if String.eqb filepath "logs/a.txt" then Return "An ERROR occurred"
    else if String.eqb filepath "logs/b.txt" then Return "all fine"
    else if String.eqb filepath "old/c.txt" then Return "Error again"
    else Raise OSError;
  glob := λ directory file_pattern,
    if String.eqb file_pattern "" then Raise ValueError
    else if String.eqb directory "logs"
    then Return ["logs/a.txt"; "logs/b.txt"; "logs/locked.txt"]
    else if String.eqb directory "old" then Return ["old/c.txt"]
    else Return [];
  cpu_count := 4;
|}%string.

(** Decides a closed proposition by evaluation. *)
Ltac by_computation := apply (bool_decide_unpack _); vm_compute; exact I.

(** ** What the files report *)

(** What the scan of the files of [files] reports: one error for every
    file that cannot be read, in the order of the files. *)
Definition read_errors (W : Platform) (report : message → event)
    (files : list string) : list event :=
  concat ((λ filepath,
             match read_text W filepath with
             | Return _ => []
             | Raise e => [report (FileFailed filepath e)]
             end) <$> files).

(** The platform [W] with another directory listing. *)
Definition with_glob (W : Platform)
    (listing : string → string → result (list string)) : Platform :=
  {| lower := lower W; read_text := read_text W; glob := listing;
     cpu_count := cpu_count W |}.

(** ** The console: [input], [print] and the two prompts *)

(** What the interactive part needs from Python and the file system. *)
Record Console := {
  (** [str.strip] *)
  strip : string → string;
  (** [Path(directory).exists()]: it raises when the path cannot be
      examined, for instance [OSError] for a name that is too long or for a
      parent directory that may not be searched *)
  path_exists : string → result bool;
}.

(** What the user does at a prompt: type a line and press Enter, or press
    Ctrl-C.  When the list is used up, standard input is at its end. *)
Inductive key :=
  | Line (text : string)
  | CtrlC.

(** What ends a prompt before it returns: the exceptions of [input], and
    what [Path.exists] raises. *)
Inductive interrupt :=
  | EOFError
  | KeyboardInterrupt
  | Raised (e : exn).

Inductive console (A : Type) :=
  | Got (a : A)
  | Stopped (i : interrupt).
Arguments Got {A} a.
Arguments Stopped {A} i.

(** What is written to standard output, prompts of [input] included. *)
Inductive printed :=
  | HowToEnter
  | HowToFinish
  | AskKeyword
  | NeedKeyword
  | AskDirectory
  | NoSuchPath
  | ResultsHeader
  | NothingFound
  | KeywordHeader (keyword : string)
  | FileLine (file : string)
  | SearchInterrupted
  | RunFailed (i : interrupt).

(** The [while True] loop of [get_keywords_from_user]: the result, the
    input that is left, and what was printed. *)
Fixpoint keywords_loop (C : Console) (keywords : list string)
    (stdin : list key) : console (list string) * list key * list printed :=
  match stdin with
  | [] => (Stopped EOFError, [], [AskKeyword])
  | CtrlC :: stdin => (Stopped KeyboardInterrupt, stdin, [AskKeyword])
  | Line text :: stdin =>
      let keyword := strip C text in
      if decide (keyword = ""%string) then
        if decide (keywords = []) then
          let '(r, rest, out) := keywords_loop C keywords stdin in
          (r, rest, AskKeyword :: NeedKeyword :: out)
        else (Got keywords, stdin, [AskKeyword])
      else
        let '(r, rest, out) :=
          keywords_loop C (keywords ++ [keyword]) stdin in
        (r, rest, AskKeyword :: out)
  end.

Definition get_keywords_from_user (C : Console) (stdin : list key)
    : console (list string) * list key * list printed :=
  let '(r, rest, out) := keywords_loop C [] stdin in
  (r, rest, HowToEnter :: HowToFinish :: out).

Fixpoint get_directory_from_user (C : Console) (stdin : list key)
    : console string * list key * list printed :=
  match stdin with
  | [] => (Stopped EOFError, [], [AskDirectory])
  | CtrlC :: stdin => (Stopped KeyboardInterrupt, stdin, [AskDirectory])
  | Line text :: stdin =>
      let directory := strip C text in
      if decide (directory = ""%string) then
        let '(r, rest, out) := get_directory_from_user C stdin in
        (r, rest, AskDirectory :: NoSuchPath :: out)
      else
        match path_exists C directory with
        | Raise e => (Stopped (Raised e), stdin, [AskDirectory])
        | Return true => (Got directory, stdin, [AskDirectory])
        | Return false =>
            let '(r, rest, out) := get_directory_from_user C stdin in
            (r, rest, AskDirectory :: NoSuchPath :: out)
        end
  end.

(** [str.strip] for ASCII white space, to run the model. *)
Fixpoint ascii_lstrip (s : string) : string :=
  match s with
  | EmptyString => EmptyString
  | String c rest => if Ascii.is_space c then ascii_lstrip rest else s
  end.

Definition ascii_strip (s : string) : string :=
  String.rev (ascii_lstrip (String.rev (ascii_lstrip s))).

Definition demo_console : Console := {|
  strip := ascii_strip;
  path_exists := λ directory,
    if bool_decide (directory = "sealed/logs"%string) then Raise OSError
    else Return (bool_decide (directory ∈ ["logs"; "old"; "nowhere"]%string));
|}.

(** A line in which the user typed no keyword: nothing, or white space. *)
Definition no_keyword (C : Console) (text : string) : Prop :=
  strip C text = ""%string.

(** ** [main] *)

(** Both programs end with the same [main]: the two prompts, a search of the
    files matching [*.txt] and the report of the results, inside a [try]
    whose [except] clauses print a message.  The user can press Ctrl-C at a
    prompt, the input can end, and [Path.exists] can raise in the directory
    prompt; an interruption while the search runs is left out. *)

(** What the [except] clause that catches [i] prints: [KeyboardInterrupt]
    has its own clause, every other exception falls to [except Exception]. *)
Definition excepted (i : interrupt) : printed :=
  match i with
  | KeyboardInterrupt => SearchInterrupted
  | EOFError | Raised _ => RunFailed i
  end.

(** [any(results.values())]: some value is a non-empty set. *)
Definition any_values (results : gmap string (gset string)) : bool :=
  existsb (λ item : string * gset string, negb (bool_decide (item.2 = ∅)))
          (map_to_list results).

(** One turn of [for keyword, files in results.items()]: nothing when
    [files] is empty, else the header of the keyword and one line per file,
    in the order in which the set is iterated. *)
Definition keyword_block (item : string * gset string)
    (block : list printed) : Prop :=
  if decide (item.2 = ∅) then block = []
  else ∃ files, files ≡ₚ elements item.2 ∧
                block = KeywordHeader item.1 :: (FileLine <$> files).

(** The loop over [results.items()], in the order of the dictionary. *)
Definition results_loop (results : gmap string (gset string))
    (report : list printed) : Prop :=
  ∃ items blocks,
    items ≡ₚ map_to_list results ∧
    Forall2 keyword_block items blocks ∧
    report = concat blocks.

Module ThreadedProgram.

(** The [if not any(results.values())] statement of [main]. *)
Definition report_results (results : gmap string (gset string))
    (report : list printed) : Prop :=
  if any_values results then results_loop results report
  else report = [NothingFound].

(** [main W C stdin out log]: with the user's input [stdin], [main] returns
    having printed [out] and logged [log]. *)
Inductive main (W : Platform) (C : Console) (stdin : list key)
    : list printed → list event → Prop :=
  | keywords_stopped i rest out :
      get_keywords_from_user C stdin = (Stopped i, rest, out) →
      main W C stdin (out ++ [excepted i]) []
  | directory_stopped keywords rest out i rest' out' :
      get_keywords_from_user C stdin = (Got keywords, rest, out) →
      get_directory_from_user C rest = (Stopped i, rest', out') →
      main W C stdin (out ++ out' ++ [excepted i]) []
  | searched keywords rest out directory rest' out' ret self' log report :
      get_keywords_from_user C stdin = (Got keywords, rest, out) →
      get_directory_from_user C rest = (Got directory, rest', out') →
      Threaded.search_directory W (Threaded.__init__ keywords 4)
        directory "*.txt" ret self' log →
      report_results ret report →
      main W C stdin (out ++ out' ++ ResultsHeader :: report) log.

End ThreadedProgram.

Module MultiprocessProgram.

(** The [if not results] statement of [main]. *)
Definition report_results (results : gmap string (gset string))
    (report : list printed) : Prop :=
  if decide (results = ∅) then report = [NothingFound]
  else results_loop results report.

(** [main W C stdin out log children]: with the user's input [stdin],
    [main] returns having printed [out] and logged [log], and [children] is
    what each child process printed. *)
Inductive main (W : Platform) (C : Console) (stdin : list key)
    : list printed → list event → list (list event) → Prop :=
  | keywords_stopped i rest out :
      get_keywords_from_user C stdin = (Stopped i, rest, out) →
      main W C stdin (out ++ [excepted i]) [] []
  | directory_stopped keywords rest out i rest' out' :
      get_keywords_from_user C stdin = (Got keywords, rest, out) →
      get_directory_from_user C rest = (Stopped i, rest', out') →
      main W C stdin (out ++ out' ++ [excepted i]) [] []
  | searched keywords rest out directory rest' out' ret log children report :
      get_keywords_from_user C stdin = (Got keywords, rest, out) →
      get_directory_from_user C rest = (Got directory, rest', out') →
      Multiprocess.search_directory W
        (Multiprocess.__init__ W keywords None)
        directory "*.txt" ret log children →
      report_results ret report →
      main W C stdin (out ++ out' ++ ResultsHeader :: report) log children.

End MultiprocessProgram.


(** * Properties *)

(** ** Substring test *)

Lemma prefix_cons c needle c' haystack :
  String.prefix (String c needle) (String c' haystack) =
  if Ascii.ascii_dec c c' then String.prefix needle haystack else false.
Proof. reflexivity. Qed.

Lemma append_cons c (s t : string) :
  (String c s +:+ t = String c (s +:+ t))%string.
Proof. reflexivity. Qed.

Lemma prefix_spec (needle haystack : string) :
  String.prefix needle haystack = true ↔
  ∃ post, haystack = (needle +:+ post)%string.
Proof.
  revert haystack. induction needle as [|c needle IH]; intros haystack.
  - split; [intros _; by exists haystack | by destruct haystack].
  - destruct haystack as [|c' haystack].
    + split; [done | by intros [? ?]].
    + rewrite prefix_cons. setoid_rewrite append_cons.
      destruct (Ascii.ascii_dec c c') as [->|Hne].
      * rewrite IH. split; intros [post Hpost]; exists post; congruence.
      * split; [done | intros [post Hpost]; congruence].
Qed.

Lemma str_in_nil needle : str_in needle "" = String.prefix needle "".
Proof. unfold str_in. apply orb_false_r. Qed.

Lemma str_in_cons needle c haystack :
  str_in needle (String c haystack) =
  String.prefix needle (String c haystack) || str_in needle haystack.
Proof. reflexivity. Qed.

Lemma str_in_spec (needle haystack : string) :
  str_in needle haystack = true ↔
  ∃ pre post, haystack = (pre +:+ needle +:+ post)%string.
Proof.
  induction haystack as [|c haystack IH].
  - rewrite str_in_nil, prefix_spec. split.
    + intros [post Hpost]. by exists EmptyString, post.
    + intros [[|??] [post Hpost]]; [by exists post | done].
  - rewrite str_in_cons, orb_true_iff, prefix_spec, IH. split.
    + intros [[post Hpost]|(pre & post & Hpost)].
      * by exists EmptyString, post.
      * exists (String c pre), post. by rewrite append_cons, Hpost.
    + intros ([|c' pre] & post & Hpost).
      * left. by exists post.
      * right. exists pre, post. rewrite append_cons in Hpost. congruence.
Qed.

(** ** Merging dictionaries of sets *)

Lemma lookup_merge_results (d local : gmap string (gset string)) k :
  merge_results d local !! k = union_with union_sets (d !! k) (local !! k).
Proof.
  unfold merge_results. revert k.
  apply (map_fold_weak_ind
           (λ acc m, ∀ k, acc !! k = union_with union_sets (d !! k) (m !! k))).
  - intros k. rewrite lookup_empty. by destruct (d !! k).
  - intros keyword files m acc Hfresh IH k.
    destruct (decide (keyword = k)) as [->|Hne].
    + rewrite !lookup_insert_eq, lookup_total_alt, IH, Hfresh.
      destruct (d !! k); simpl; [done|].
      unfold union_sets. f_equal. set_solver.
    + by rewrite !lookup_insert_ne, IH.
Qed.

Lemma merge_results_union_with (d local : gmap string (gset string)) :
  merge_results d local = union_with union_sets d local.
Proof.
  apply map_eq. intros k.
  by rewrite lookup_merge_results, lookup_union_with.
Qed.

Lemma lookup_total_merge_results (d local : gmap string (gset string)) k :
  merge_results d local !!! k = d !!! k ∪ local !!! k.
Proof.
  rewrite !lookup_total_alt, lookup_merge_results.
  destruct (d !! k), (local !! k); simpl; set_solver.
Qed.


Lemma merge_results_empty_l (d : gmap string (gset string)) :
  merge_results ∅ d = d.
Proof.
  apply map_eq. intros k. rewrite lookup_merge_results, lookup_empty.
  by destruct (d !! k).
Qed.

Lemma merge_results_comm (a b : gmap string (gset string)) :
  merge_results a b = merge_results b a.
Proof.
  apply map_eq. intros k. rewrite !lookup_merge_results.
  destruct (a !! k), (b !! k); simpl; unfold union_sets; try done.
  f_equal. set_solver.
Qed.

Lemma merge_results_assoc (a b c : gmap string (gset string)) :
  merge_results a (merge_results b c) = merge_results (merge_results a b) c.
Proof.
  apply map_eq. intros k. rewrite !lookup_merge_results.
  destruct (a !! k), (b !! k), (c !! k); simpl; unfold union_sets; try done.
  f_equal. set_solver.
Qed.

Lemma merge_results_swap (d a b : gmap string (gset string)) :
  merge_results (merge_results d a) b = merge_results (merge_results d b) a.
Proof.
  rewrite <- !merge_results_assoc. f_equal. apply merge_results_comm.
Qed.

Lemma foldl_merge_results_perm (ls ls' : list (gmap string (gset string))) d :
  ls ≡ₚ ls' → foldl merge_results d ls = foldl merge_results d ls'.
Proof.
  intros Hperm. revert d.
  induction Hperm as [|l ls ls' _ IH|l l' ls|ls ls' ls'' _ IH1 _ IH2];
    intros d; simpl.
  - done.
  - apply IH.
  - by rewrite merge_results_swap.
  - by rewrite IH1.
Qed.

Lemma foldl_merge_results_acc (ls : list (gmap string (gset string))) d :
  foldl merge_results d ls = merge_results d (foldl merge_results ∅ ls).
Proof.
  revert d. induction ls as [|l ls IH]; intros d; simpl.
  - done.
  - rewrite IH, (IH (merge_results ∅ l)), merge_results_empty_l.
    by rewrite merge_results_assoc.
Qed.

Lemma elem_of_foldl_merge_results
    (ls : list (gmap string (gset string))) d k (x : string) :
  x ∈ foldl merge_results d ls !!! k ↔
  x ∈ d !!! k ∨ ∃ l, l ∈ ls ∧ x ∈ l !!! k.
Proof.
  revert d. induction ls as [|l ls IH]; intros d; simpl.
  - split; [by left | intros [?|(l & Hl & _)]; [done | by inversion Hl]].
  - rewrite IH, lookup_total_merge_results, elem_of_union. split.
    + intros [[?|?]|(l' & ? & ?)]; [by left | right.. ].
      * exists l. split; [left | done].
      * exists l'. split; [by right | done].
    + intros [?|(l' & [->|?]%elem_of_cons & ?)]; [by left; left | by left; right |].
      right. by exists l'.
Qed.

(** ** Scanning one file *)

Lemma lookup_add_path d keyword filepath k :
  add_path d keyword filepath !! k =
  if decide (keyword = k) then Some (d !!! k ∪ {[filepath]}) else d !! k.
Proof.
  unfold add_path. case_decide as Hk.
  - subst. by rewrite lookup_insert_eq.
  - by rewrite lookup_insert_ne.
Qed.

Lemma lookup_scan_loop W filepath content (l : list string) k :
  foldr (λ keyword local_results,
           if str_in (lower W keyword) content
           then add_path local_results keyword filepath
           else local_results) ∅ l !! k =
  if decide (k ∈ l ∧ str_in (lower W k) content = true)
  then Some {[filepath]} else None.
Proof.
  induction l as [|keyword l IH]; cbn [foldr].
  - rewrite lookup_empty, decide_False; [done|].
    intros [H _]. by inversion H.
  - destruct (str_in (lower W keyword) content) eqn:Hin.
    + rewrite lookup_add_path.
      destruct (decide (keyword = k)) as [->|Hk].
      * rewrite (decide_True (P := _ ∧ _)) by (split; [left | done]).
        rewrite lookup_total_alt, IH. f_equal.
        case_decide; simpl; set_solver.
      * rewrite IH. apply decide_ext. set_solver.
    + rewrite IH. apply decide_ext. split.
      * intros [? ?]. split; [by right | done].
      * intros [[->|?]%elem_of_cons ?]; [congruence | done].
Qed.

Lemma lookup_scan_content W keywords filepath content k :
  scan_content W keywords filepath content !! k =
  if decide (k ∈ keywords ∧ str_in (lower W k) content = true)
  then Some {[filepath]} else None.
Proof.
  unfold scan_content, set_fold. simpl. rewrite lookup_scan_loop.
  apply decide_ext. by rewrite elem_of_elements.
Qed.

Lemma elem_of_scan_content W keywords filepath content k (x : string) :
  x ∈ scan_content W keywords filepath content !!! k ↔
  x = filepath ∧ k ∈ keywords ∧ str_in (lower W k) content = true.
Proof.
  rewrite lookup_total_alt, lookup_scan_content.
  case_decide as H; simpl; set_solver.
Qed.

Lemma elem_of_threaded_search_file W self filepath k (x : string) :
  x ∈ (Threaded.search_file W self filepath).1 !!! k ↔
  x = filepath ∧ found W (Threaded.keywords self) k filepath.
Proof.
  unfold Threaded.search_file, found.
  destruct (read_text W filepath) as [text|e]; simpl.
  - rewrite elem_of_scan_content. split.
    + intros (-> & ? & ?). eauto.
    + intros (-> & ? & text' & [= <-] & ?). done.
  - rewrite lookup_total_empty. split; [set_solver|].
    by intros (_ & _ & text & ? & _).
Qed.

Lemma elem_of_multiprocess_search_file W keywords filepath k (x : string) :
  x ∈ (Multiprocess.search_file W filepath keywords).1 !!! k ↔
  x = filepath ∧ found W keywords k filepath.
Proof.
  unfold Multiprocess.search_file, found.
  destruct (read_text W filepath) as [text|e]; simpl.
  - rewrite elem_of_scan_content. split.
    + intros (-> & ? & ?). eauto.
    + intros (-> & ? & text' & [= <-] & ?). done.
  - rewrite lookup_total_empty. split; [set_solver|].
    by intros (_ & _ & text & ? & _).
Qed.

(** ** Chunks *)

Lemma chunk_size_pos n w : 1 ≤ w → (1 ≤ chunk_size n w)%nat.
Proof.
  intros Hw. unfold chunk_size.
  assert (0 ≤ Z.of_nat n `div` w) by (apply Z.div_pos; lia). lia.
Qed.

Lemma file_chunks_pos (all_files : list string) w :
  1 ≤ w →
  file_chunks all_files w =
  Return ((λ j, slice all_files (j * chunk_size (length all_files) w)
                  (j * chunk_size (length all_files) w +
                   chunk_size (length all_files) w))%nat <$>
          seq 0 (chunk_count (length all_files) w)).
Proof.
  intros Hw. pose proof (chunk_size_pos (length all_files) w Hw) as Hpos.
  unfold file_chunks, files_per_worker, floordiv, range0, chunk_count.
  unfold chunk_size in *.
  rewrite decide_False by lia. cbn [bind].
  rewrite decide_False by lia. rewrite decide_False by lia. cbn [bind].
  rewrite <- list_fmap_compose. rewrite Z2Nat.id by lia. done.
Qed.

Lemma concat_slices {A} (l : list A) (s k : nat) :
  concat ((λ j, slice l (j * s) (j * s + s))%nat <$> seq 0 k) =
  take (k * s) l.
Proof.
  induction k as [|k IH].
  - done.
  - rewrite seq_S, fmap_app, concat_app, IH. simpl.
    rewrite app_nil_r. unfold slice.
    replace (k * s + s - k * s)%nat with s by lia.
    rewrite take_take_drop. f_equal. lia.
Qed.

Lemma chunk_count_covers n w :
  1 ≤ w → (n ≤ chunk_count n w * chunk_size n w)%nat.
Proof.
  intros Hw. pose proof (chunk_size_pos n w Hw) as Hpos.
  unfold chunk_count. set (s := chunk_size n w) in *.
  pose proof (Z.div_mod (Z.of_nat n + Z.of_nat s - 1) (Z.of_nat s)) as Hdm.
  pose proof (Z.mod_pos_bound (Z.of_nat n + Z.of_nat s - 1) (Z.of_nat s)).
  assert (0 ≤ (Z.of_nat n + Z.of_nat s - 1) `div` Z.of_nat s)
    by (apply Z.div_pos; lia).
  nia.
Qed.

Lemma chunk_count_le n w :
  1 ≤ w → Z.of_nat (chunk_count n w) ≤ w.
Proof.
  intros Hw. pose proof (chunk_size_pos n w Hw) as Hpos.
  unfold chunk_count.
  assert (Z.of_nat (chunk_size n w) = Z.of_nat n `div` w + 1) as Hs.
  { unfold chunk_size.
    assert (0 ≤ Z.of_nat n `div` w) by (apply Z.div_pos; lia). lia. }
  set (s := chunk_size n w) in *.
  pose proof (Z.div_mod (Z.of_nat n) w) as Hdm.
  pose proof (Z.mod_pos_bound (Z.of_nat n) w).
  assert (0 ≤ (Z.of_nat n + Z.of_nat s - 1) `div` Z.of_nat s)
    by (apply Z.div_pos; lia).
  rewrite Z2Nat.id by done.
  apply Z.lt_succ_r, Z.div_lt_upper_bound; [lia|]. nia.
Qed.

Lemma concat_file_chunks (all_files : list string) w chunks :
  1 ≤ w → file_chunks all_files w = Return chunks → concat chunks = all_files.
Proof.
  intros Hw. rewrite file_chunks_pos by done. intros [= <-].
  rewrite concat_slices. apply take_ge.
  by apply chunk_count_covers.
Qed.

(** ** The thread pool *)

Section pool.
Context (W : Platform) (self : Threaded.TextSearcher).

Local Abbreviation scan := (λ filepath, (Threaded.search_file W self filepath).1).
Local Abbreviation report := (λ filepath, (Threaded.search_file W self filepath).2).

Lemma concat_take_next (pending : list (list string)) i filepath files :
  pending !! i = Some (filepath :: files) →
  concat pending ≡ₚ filepath :: concat (<[i := files]> pending).
Proof.
  intros Hi.
  rewrite <- (take_drop_middle pending i _ Hi) at 1.
  rewrite insert_take_drop by (by eapply lookup_lt_Some).
  rewrite !concat_app. simpl.
  by rewrite <- !Permutation_middle.
Qed.

Lemma process_files_step_merged σ σ' :
  Threaded.process_files_step W self σ σ' →
  merged scan (Threaded.shared σ') (concat (Threaded.pending σ')) =
  merged scan (Threaded.shared σ) (concat (Threaded.pending σ)).
Proof.
  intros [σ0 i filepath files Hi]. simpl. unfold merged.
  rewrite (foldl_merge_results_perm (scan <$> concat (Threaded.pending σ0))
             (scan <$> filepath :: concat (<[i := files]> (Threaded.pending σ0)))).
  - done.
  - apply fmap_Permutation. by apply concat_take_next.
Qed.

Lemma process_files_steps_merged σ σ' :
  rtc (Threaded.process_files_step W self) σ σ' →
  merged scan (Threaded.shared σ') (concat (Threaded.pending σ')) =
  merged scan (Threaded.shared σ) (concat (Threaded.pending σ)).
Proof.
  induction 1 as [|σ1 σ2 σ3 Hstep _ IH]; [done|].
  by rewrite IH, (process_files_step_merged σ1 σ2).
Qed.

Lemma joined_concat σ : Threaded.joined σ → concat (Threaded.pending σ) = [].
Proof.
  unfold Threaded.joined. induction 1 as [|files pending -> _ IH]; [done|].
  done.
Qed.

(** Whatever the interleaving, once every call of [process_files] has
    returned the shared dictionary holds the contribution of every file. *)
Lemma pool_joined_shared chunks d log σ :
  rtc (Threaded.process_files_step W self)
      {| Threaded.pending := chunks; Threaded.shared := d;
         Threaded.logged := log |} σ →
  Threaded.joined σ →
  Threaded.shared σ = merged scan d (concat chunks).
Proof.
  intros Hrun Hjoined.
  apply process_files_steps_merged in Hrun. simpl in Hrun.
  by rewrite <- Hrun, (joined_concat σ Hjoined).
Qed.

(** The logger output is, up to the interleaving, what the files
    report. *)
Lemma process_files_steps_logged σ σ' :
  rtc (Threaded.process_files_step W self) σ σ' →
  Threaded.logged σ' ++ concat (report <$> concat (Threaded.pending σ')) ≡ₚ
  Threaded.logged σ ++ concat (report <$> concat (Threaded.pending σ)).
Proof.
  induction 1 as [|σ1 σ2 σ3 Hstep _ IH]; [done|].
  rewrite IH. destruct Hstep as [σ0 i filepath files Hi]. simpl.
  rewrite (concat_take_next _ _ _ _ Hi). simpl.
  by rewrite <- app_assoc.
Qed.

(** The pool can always run to completion, for instance one call of
    [process_files] after the other. *)
Lemma process_files_sequential (finished : list (list string)) files rest d log :
  rtc (Threaded.process_files_step W self)
      {| Threaded.pending := finished ++ files :: rest;
         Threaded.shared := d; Threaded.logged := log |}
      {| Threaded.pending := finished ++ [] :: rest;
         Threaded.shared := merged scan d files;
         Threaded.logged := log ++ concat (report <$> files) |}.
Proof.
  revert d log. induction files as [|filepath files IH]; intros d log.
  - simpl. rewrite app_nil_r. apply rtc_refl.
  - assert (log ++ concat (report <$> filepath :: files) =
            (log ++ report filepath) ++ concat (report <$> files)) as ->
      by (simpl; by rewrite app_assoc).
    eapply rtc_l; [|apply (IH (merge_results d (scan filepath))
                               (log ++ report filepath))].
    pose proof (Threaded.process_next_file W self
        {| Threaded.pending := finished ++ (filepath :: files) :: rest;
           Threaded.shared := d; Threaded.logged := log |}
        (length finished) filepath files) as Hstep.
      simpl in Hstep.
      rewrite list_lookup_middle in Hstep by done.
      rewrite insert_app_r_alt, Nat.sub_diag in Hstep by done.
      by apply Hstep.
Qed.

Lemma pool_sequential (finished chunks : list (list string)) d log :
  rtc (Threaded.process_files_step W self)
      {| Threaded.pending := finished ++ chunks;
         Threaded.shared := d; Threaded.logged := log |}
      {| Threaded.pending := finished ++ ((λ _, []) <$> chunks);
         Threaded.shared := merged scan d (concat chunks);
         Threaded.logged := log ++ concat (report <$> concat chunks) |}.
Proof.
  revert finished d log.
  induction chunks as [|files chunks IH]; intros finished d log.
  - simpl. rewrite !app_nil_r. apply rtc_refl.
  - etrans; [apply process_files_sequential|].
    rewrite (cons_middle [] finished chunks), app_assoc.
    etrans; [apply IH|].
    rewrite <- app_assoc. simpl. unfold merged.
    rewrite !fmap_app, foldl_app, !concat_app, app_assoc.
    apply rtc_refl.
Qed.
End pool.

Lemma elem_of_merged scan d files k (x : string) :
  x ∈ merged scan d files !!! k ↔
  x ∈ d !!! k ∨ ∃ filepath, filepath ∈ files ∧ x ∈ scan filepath !!! k.
Proof.
  unfold merged. rewrite elem_of_foldl_merge_results.
  apply or_iff_compat_l. split.
  - intros (l & (filepath & -> & ?)%list_elem_of_fmap & ?). eauto.
  - intros (filepath & ? & ?). exists (scan filepath).
    split; [|done]. apply list_elem_of_fmap. eauto.
Qed.

Lemma merged_concat scan d (chunks : list (list string)) :
  merged scan d (concat chunks) =
  foldl merge_results d ((λ chunk, merged scan ∅ chunk) <$> chunks).
Proof.
  revert d. induction chunks as [|chunk chunks IH]; intros d; [done|].
  unfold merged in *. simpl. rewrite fmap_app, foldl_app, IH.
  f_equal. apply foldl_merge_results_acc.
Qed.

(** ** [search_directory], threads *)

Section threaded.
Context (W : Platform).
Implicit Types self : Threaded.TextSearcher.
Local Abbreviation scan self :=
  (λ filepath, (Threaded.search_file W self filepath).1).

Lemma threaded_submit_pos self all_files :
  1 ≤ Threaded.num_threads self →
  Threaded.submit self all_files =
  file_chunks all_files (Threaded.num_threads self).
Proof.
  intros Hn. unfold Threaded.submit, Threaded.ThreadPoolExecutor.
  rewrite file_chunks_pos by done. simpl.
  by rewrite decide_False by lia.
Qed.

Lemma threaded_submit_nonpos self all_files :
  Threaded.num_threads self ≤ 0 →
  ∃ e, Threaded.submit self all_files = Raise e.
Proof.
  intros Hn. unfold Threaded.submit, Threaded.ThreadPoolExecutor.
  destruct (file_chunks _ _) as [chunks|e]; simpl; [|by eauto].
  rewrite decide_True by done. eauto.
Qed.

Lemma threaded_try_block_returns self directory file_pattern ret self' log :
  1 ≤ Threaded.num_threads self →
  Threaded.try_block W self directory file_pattern (Return ret) self' log →
  ret = merged (scan self) (Threaded.results self)
               (listed W directory file_pattern) ∧
  Threaded.results self' = ret ∧
  Threaded.keywords self' = Threaded.keywords self ∧
  Threaded.num_threads self' = Threaded.num_threads self.
Proof.
  intros Hn Htry. unfold listed. inversion Htry as
    [|Hglob|all_files e Hglob Hne Hsubmit
     |all_files chunks σ Hglob Hne Hsubmit Hrun Hjoined]; subst.
  - by rewrite Hglob.
  - rewrite Hglob. simpl. split_and!; try done.
    rewrite threaded_submit_pos in Hsubmit by done.
    apply concat_file_chunks in Hsubmit as <-; [|done].
    by eapply pool_joined_shared.
Qed.

Lemma threaded_try_block_raises self directory file_pattern e self' log :
  1 ≤ Threaded.num_threads self →
  Threaded.try_block W self directory file_pattern (Raise e) self' log →
  glob W directory file_pattern = Raise e ∧ self' = self ∧ log = [].
Proof.
  intros Hn Htry. inversion Htry as
    [e' Hglob|Hglob|all_files e' Hglob Hne Hsubmit
     |all_files chunks σ Hglob Hne Hsubmit Hrun Hjoined]; subst; [done|].
  rewrite threaded_submit_pos, file_chunks_pos in Hsubmit by done. done.
Qed.

(** With a positive number of threads the returned dictionary does not depend
    on the interleaving of the threads. *)
Lemma threaded_search_directory_ret self directory file_pattern ret self' log :
  1 ≤ Threaded.num_threads self →
  Threaded.search_directory W self directory file_pattern ret self' log →
  ret = merged (scan self) (Threaded.results self)
               (listed W directory file_pattern) ∧
  Threaded.results self' = ret ∧
  Threaded.keywords self' = Threaded.keywords self ∧
  Threaded.num_threads self' = Threaded.num_threads self.
Proof.
  intros Hn [ret' self'' log' Htry|e self'' log' Htry].
  - by eapply threaded_try_block_returns.
  - apply threaded_try_block_raises in Htry as (Hglob & -> & ->); [|done].
    unfold listed. by rewrite Hglob.
Qed.

(** Every call returns. *)
Lemma threaded_search_directory_total self directory file_pattern :
  ∃ ret self' log,
    Threaded.search_directory W self directory file_pattern ret self' log.
Proof.
  destruct (glob W directory file_pattern) as [all_files|e] eqn:Hglob.
  - destruct (decide (all_files = [])) as [->|Hne].
    { do 3 eexists. apply Threaded.try_returns. by apply Threaded.no_files. }
    destruct (Threaded.submit self all_files) as [chunks|e] eqn:Hsubmit.
    + do 3 eexists. apply Threaded.try_returns.
      eapply Threaded.pool_joined; [done..| |].
      * apply (pool_sequential W self [] chunks).
      * unfold Threaded.joined. simpl.
        apply Forall_fmap, Forall_true. done.
    + do 3 eexists. apply Threaded.except_Exception.
      by eapply Threaded.submit_raises.
  - do 3 eexists. apply Threaded.except_Exception.
    by apply Threaded.listing_raises.
Qed.
End threaded.

(** ** [search_directory], processes *)

Section multiprocess.
Context (W : Platform).
Implicit Types self : Multiprocess.TextSearcher.
Local Abbreviation scan keywords :=
  (λ filepath, (Multiprocess.search_file W filepath keywords).1).

Lemma multiprocess_process_files_fst files keywords :
  (Multiprocess.process_files W files keywords).1 =
  merged (scan keywords) ∅ files.
Proof.
  unfold Multiprocess.process_files, merged.
  generalize (∅ : gmap string (gset string)) ([] : list event).
  induction files as [|filepath files IH]; intros d out; [done|].
  simpl. by rewrite IH.
Qed.

Lemma multiprocess_collect received chunks keywords :
  received ≡ₚ (λ chunk, (Multiprocess.process_files W chunk keywords).1)
                <$> chunks →
  Multiprocess.collect received = merged (scan keywords) ∅ (concat chunks).
Proof.
  intros Hperm. unfold Multiprocess.collect.
  rewrite (foldl_merge_results_perm _ _ _ Hperm), merged_concat.
  f_equal. apply list_fmap_ext. intros _ chunk _.
  apply multiprocess_process_files_fst.
Qed.

Lemma multiprocess_search_directory_ret self directory file_pattern ret log out :
  1 ≤ Multiprocess.num_processes self →
  Multiprocess.search_directory W self directory file_pattern ret log out →
  ret = merged (scan (Multiprocess.keywords self)) ∅
               (listed W directory file_pattern).
Proof.
  intros Hn Hcall. unfold listed.
  destruct Hcall as [ret log out Htry|e log out Htry]; inversion Htry as
    [e' Hglob|Hglob|all_files e' Hglob Hne Hchunks
     |all_files chunks received Hglob Hne Hchunks Hperm]; subst.
  - by rewrite Hglob.
  - rewrite Hglob.
    rewrite (multiprocess_collect _ _ _ Hperm).
    by apply concat_file_chunks in Hchunks as ->.
  - by rewrite Hglob.
  - by rewrite file_chunks_pos in Hchunks.
Qed.

Lemma multiprocess_search_directory_total self directory file_pattern :
  ∃ ret log out,
    Multiprocess.search_directory W self directory file_pattern ret log out.
Proof.
  destruct (glob W directory file_pattern) as [all_files|e] eqn:Hglob.
  - destruct (decide (all_files = [])) as [->|Hne].
    { do 3 eexists. apply Multiprocess.try_returns.
      by apply Multiprocess.no_files. }
    destruct (file_chunks all_files (Multiprocess.num_processes self))
      as [chunks|e] eqn:Hchunks.
    + do 3 eexists. apply Multiprocess.try_returns.
      by eapply Multiprocess.processes_joined.
    + do 3 eexists. apply Multiprocess.except_Exception.
      by eapply Multiprocess.chunking_raises.
  - do 3 eexists. apply Multiprocess.except_Exception.
    by apply Multiprocess.listing_raises.
Qed.
End multiprocess.

Lemma in_result_lookup_total ret keyword filepath :
  in_result ret keyword filepath ↔ filepath ∈ ret !!! keyword.
Proof.
  unfold in_result. rewrite lookup_total_alt. split.
  - by intros (files & -> & ?).
  - destruct (ret !! keyword) as [files|]; simpl; [eauto | set_solver].
Qed.

Lemma found_occurs W keywords keyword filepath :
  found W keywords keyword filepath ↔
  keyword ∈ keywords ∧ occurs W keyword filepath.
Proof.
  unfold found, occurs. apply and_iff_compat_l. split.
  - intros (text & ? & (pre & post & ?)%str_in_spec). eauto 6.
  - intros (text & pre & post & ? & ?). exists text. split; [done|].
    apply str_in_spec. eauto.
Qed.

Lemma in_result_merged_threaded W self files keyword filepath :
  in_result (merged (λ f, (Threaded.search_file W self f).1) ∅ files)
            keyword filepath ↔
  filepath ∈ files ∧ keyword ∈ Threaded.keywords self ∧
  occurs W keyword filepath.
Proof.
  rewrite in_result_lookup_total, elem_of_merged, lookup_total_empty.
  setoid_rewrite elem_of_threaded_search_file.
  setoid_rewrite found_occurs. split.
  - intros [?|(f & ? & -> & ?)]; [set_solver | done].
  - intros (? & ? & ?). right. eauto.
Qed.

Lemma in_result_merged_multiprocess W keywords files keyword filepath :
  in_result (merged (λ f, (Multiprocess.search_file W f keywords).1) ∅ files)
            keyword filepath ↔
  filepath ∈ files ∧ keyword ∈ keywords ∧ occurs W keyword filepath.
Proof.
  rewrite in_result_lookup_total, elem_of_merged, lookup_total_empty.
  setoid_rewrite elem_of_multiprocess_search_file.
  setoid_rewrite found_occurs. split.
  - intros [?|(f & ? & -> & ?)]; [set_solver | done].
  - intros (? & ? & ?). right. eauto.
Qed.

Lemma listed_glob W directory file_pattern all_files :
  glob W directory file_pattern = Return all_files →
  listed W directory file_pattern = all_files.
Proof. unfold listed. by intros ->. Qed.

Lemma multiprocess_init_num_processes W keywords n :
  1 ≤ n →
  Multiprocess.num_processes (Multiprocess.__init__ W keywords (Some n)) = n.
Proof. intros Hn. simpl. by rewrite decide_False by lia. Qed.

(** ** A file that cannot be read *)


(** ** Partitioning *)

Lemma concat_lookup_split {A} (ls : list (list A)) i j ci cj :
  (i < j)%nat → ls !! i = Some ci → ls !! j = Some cj →
  ∃ before between after,
    concat ls = before ++ ci ++ between ++ cj ++ after.
Proof.
  intros Hij Hi Hj.
  assert (drop (S i) ls !! (j - S i)%nat = Some cj) as Hj'
    by (rewrite lookup_drop, <- Hj; f_equal; lia).
  exists (concat (take i ls)),
         (concat (take (j - S i) (drop (S i) ls))),
         (concat (drop (S (j - S i)) (drop (S i) ls))).
  rewrite <- (take_drop_middle ls i ci Hi) at 1.
  rewrite <- (take_drop_middle _ _ cj Hj') at 1.
  by rewrite !concat_app, !concat_cons, !concat_app, !concat_cons.
Qed.

Lemma lookup_file_chunks (all_files : list string) w chunks i chunk :
  1 ≤ w → file_chunks all_files w = Return chunks →
  chunks !! i = Some chunk →
  chunk = take (chunk_size (length all_files) w)
               (drop (i * chunk_size (length all_files) w) all_files).
Proof.
  intros Hw. rewrite file_chunks_pos by done. intros [= <-].
  rewrite list_lookup_fmap_Some.
  intros (j & -> & [-> _]%lookup_seq). unfold slice. simpl.
  f_equal. lia.
Qed.

(** ** Any number of workers *)

Lemma file_chunks_nonpos (all_files : list string) w chunks :
  w ≤ 0 → file_chunks all_files w = Return chunks → chunks = [].
Proof.
  intros Hw. unfold file_chunks, files_per_worker, floordiv, range0.
  destruct (decide (w = 0)) as [->|Hw0]; [done|]. cbn [bind].
  pose proof (Z.div_mod (Z.of_nat (length all_files)) w ltac:(lia)) as Hdm.
  pose proof (Z.mod_neg_bound (Z.of_nat (length all_files)) w ltac:(lia)).
  assert (Z.of_nat (length all_files) `div` w ≤ 0) as Hq by nia.
  destruct (decide _) as [|Hne]; [done|].
  destruct (decide _) as [|Hpos]; cbn [bind]; [by intros [= <-]|].
  assert (Z.of_nat (length all_files) `div` w = 0) as Hq0 by lia.
  assert (length all_files = 0%nat) as -> by nia.
  by intros [= <-].
Qed.

Lemma threaded_search_directory_any W self directory file_pattern ret self' log :
  Threaded.search_directory W self directory file_pattern ret self' log →
  ret = merged (λ f, (Threaded.search_file W self f).1)
          (Threaded.results self)
          (scanned (Threaded.num_threads self)
                   (listed W directory file_pattern)) ∧
  Threaded.results self' = ret ∧
  Threaded.keywords self' = Threaded.keywords self ∧
  Threaded.num_threads self' = Threaded.num_threads self.
Proof.
  intros Hcall. unfold scanned. case_decide as Hn.
  { by eapply threaded_search_directory_ret. }
  destruct Hcall as [ret self' log Htry|e self' log Htry]; inversion Htry as
    [e' Hglob|Hglob|all_files e' Hglob Hne Hsubmit
     |all_files chunks σ Hglob Hne Hsubmit Hrun Hjoined]; subst; try done.
  destruct (threaded_submit_nonpos self all_files) as [e Hraise]; [lia|].
  congruence.
Qed.

Lemma multiprocess_search_directory_any W self directory file_pattern
    ret log out :
  Multiprocess.search_directory W self directory file_pattern ret log out →
  ret = merged (λ f, (Multiprocess.search_file W f
                        (Multiprocess.keywords self)).1) ∅
          (scanned (Multiprocess.num_processes self)
                   (listed W directory file_pattern)).
Proof.
  intros Hcall. unfold scanned. case_decide as Hn.
  { by eapply multiprocess_search_directory_ret. }
  destruct Hcall as [ret log out Htry|e log out Htry]; inversion Htry as
    [e' Hglob|Hglob|all_files e' Hglob Hne Hchunks
     |all_files chunks received Hglob Hne Hchunks Hperm]; subst; try done.
  apply file_chunks_nonpos in Hchunks as ->; [|lia].
  by apply Permutation_nil_r in Hperm as ->.
Qed.

Lemma elem_of_scanned w all_files (f : string) :
  f ∈ scanned w all_files → f ∈ all_files.
Proof. unfold scanned. case_decide; [done | by intros ?%elem_of_nil]. Qed.

(** ** Growth of the shared dictionary *)

Lemma merge_results_grows d local keyword :
  d !!! keyword ⊆ merge_results d local !!! keyword.
Proof. rewrite lookup_total_merge_results. set_solver. Qed.


Lemma merged_grows scan d files keyword :
  d !!! keyword ⊆ merged scan d files !!! keyword.
Proof. intros x Hx. apply elem_of_merged. by left. Qed.

(** ** No empty entries *)

Lemma no_empty_entry_empty : no_empty_entry ∅.
Proof. intros k files. by rewrite lookup_empty. Qed.

Lemma no_empty_entry_merge_results d local :
  no_empty_entry d → no_empty_entry local →
  no_empty_entry (merge_results d local).
Proof.
  intros Hd Hlocal k files. rewrite lookup_merge_results.
  specialize (Hd k). specialize (Hlocal k).
  destruct (d !! k) as [a|], (local !! k) as [b|]; simpl; try done.
  - intros [= <-]. specialize (Hd a eq_refl). set_solver.
  - intros [= <-]. by apply Hd.
  - intros [= <-]. by apply Hlocal.
Qed.

Lemma no_empty_entry_merged scan d (files : list string) :
  no_empty_entry d → (∀ f, no_empty_entry (scan f)) →
  no_empty_entry (merged scan d files).
Proof.
  intros Hd Hscan. revert d Hd. unfold merged.
  induction files as [|f files IH]; intros d Hd; [done|].
  simpl. apply IH. by apply no_empty_entry_merge_results.
Qed.

Lemma no_empty_entry_scan_content W keywords filepath content :
  no_empty_entry (scan_content W keywords filepath content).
Proof.
  intros k files. rewrite lookup_scan_content.
  case_decide; [|done]. intros [= <-]. set_solver.
Qed.

Lemma no_empty_entry_threaded_search_file W self filepath :
  no_empty_entry (Threaded.search_file W self filepath).1.
Proof.
  unfold Threaded.search_file. destruct (read_text W filepath); simpl.
  - apply no_empty_entry_scan_content.
  - apply no_empty_entry_empty.
Qed.

Lemma no_empty_entry_multiprocess_search_file W filepath keywords :
  no_empty_entry (Multiprocess.search_file W filepath keywords).1.
Proof.
  unfold Multiprocess.search_file. destruct (read_text W filepath); simpl.
  - apply no_empty_entry_scan_content.
  - apply no_empty_entry_empty.
Qed.

(** ** Searchers that are used again *)

Lemma threaded_in_result W self directory file_pattern ret self' log
    keyword filepath :
  Threaded.search_directory W self directory file_pattern ret self' log →
  in_result ret keyword filepath ↔
  in_result (Threaded.results self) keyword filepath ∨
  (filepath ∈ scanned (Threaded.num_threads self)
                (listed W directory file_pattern) ∧
   keyword ∈ Threaded.keywords self ∧ occurs W keyword filepath).
Proof.
  intros Hcall.
  apply threaded_search_directory_any in Hcall as (-> & _).
  rewrite !in_result_lookup_total, elem_of_merged.
  apply or_iff_compat_l.
  setoid_rewrite elem_of_threaded_search_file.
  setoid_rewrite found_occurs. split.
  - by intros (f & ? & -> & ?).
  - intros (? & ? & ?). eauto.
Qed.

(** A searcher only holds matches of its keywords, as long as the platform
    stays the same, and no empty entry. *)
Lemma reachable_results W self :
  reachable W self →
  (∀ keyword filepath,
     in_result (Threaded.results self) keyword filepath →
     keyword ∈ Threaded.keywords self ∧ occurs W keyword filepath) ∧
  no_empty_entry (Threaded.results self).
Proof.
  induction 1 as [keywords n|self directory file_pattern ret self' log
                  _ [IHsound IHne] Hcall].
  - split; [|apply no_empty_entry_empty].
    intros keyword filepath (files & Hlookup & _).
    simpl in Hlookup. by rewrite lookup_empty in Hlookup.
  - pose proof (threaded_search_directory_any _ _ _ _ _ _ _ Hcall)
      as (Hret & Hself' & Hkeywords & _).
    rewrite Hself', Hkeywords. split.
    + intros keyword filepath
        [?|(_ & ? & ?)]%(threaded_in_result _ _ _ _ _ _ _ _ _ Hcall); auto.
    + rewrite Hret. apply no_empty_entry_merged; [done|].
      intros f. apply no_empty_entry_threaded_search_file.
Qed.

(** ** Running the model *)

Example error_matches_any_case :
  str_in (ascii_str_lower "Error") (ascii_str_lower "An ERROR occurred") = true.
Proof. reflexivity. Qed.

Example three_files_one_process :
  (Multiprocess.process_files demo
     ["logs/a.txt"; "old/c.txt"; "logs/b.txt"]%string
     {["Error"%string]}).1
  = {[ "Error" := {[ "logs/a.txt"; "old/c.txt" ]} ]}%string.
Proof. vm_compute. reflexivity. Qed.

Example unreadable_file_is_printed :
  (Multiprocess.process_files demo
     ["logs/locked.txt"; "logs/b.txt"]%string {["Error"%string]}).2
  = [Print (FileFailed "logs/locked.txt" OSError)].
Proof. vm_compute. reflexivity. Qed.

Example five_files_two_workers :
  file_chunks ["a"; "b"; "c"; "d"; "e"]%string 2
  = Return [["a"; "b"; "c"]; ["d"; "e"]]%string.
Proof. reflexivity. Qed.

Example no_worker : file_chunks ["a"; "b"]%string 0 = Raise ZeroDivisionError.
Proof. reflexivity. Qed.

(** * The properties of the specification *)

(** ** The result of a search *)

(** C1: with at least one worker, a file of the scanned list is in the
    returned result under a keyword exactly when it could be read and the
    lowercased keyword is a substring of its lowercased content, and every
    call returns: in the lock-based program for a new searcher and for one
    that has been used before on the same platform, in the queue-based
    program for every searcher. *)
Theorem search_directory_exact W directory file_pattern all_files :
  glob W directory file_pattern = Return all_files →
  (∀ self,
     reachable W self → 1 ≤ Threaded.num_threads self →
     (∃ ret self' log,
        Threaded.search_directory W self directory file_pattern
          ret self' log) ∧
     (∀ ret self' log,
        Threaded.search_directory W self directory file_pattern
          ret self' log →
        ∀ keyword filepath,
          keyword ∈ Threaded.keywords self → filepath ∈ all_files →
          in_result ret keyword filepath ↔ occurs W keyword filepath)) ∧
  (∀ self,
     1 ≤ Multiprocess.num_processes self →
     (∃ ret log out,
        Multiprocess.search_directory W self directory file_pattern
          ret log out) ∧
     (∀ ret log out,
        Multiprocess.search_directory W self directory file_pattern
          ret log out →
        ∀ keyword filepath,
          keyword ∈ Multiprocess.keywords self → filepath ∈ all_files →
          in_result ret keyword filepath ↔ occurs W keyword filepath)).
Proof.
  intros Hglob. split.
  - intros self Hreach Hn. split; [apply threaded_search_directory_total|].
    intros ret self' log Hcall keyword filepath Hk Hf.
    rewrite (threaded_in_result _ _ _ _ _ _ _ _ _ Hcall).
    unfold scanned. rewrite decide_True, (listed_glob _ _ _ _ Hglob) by done.
    pose proof (proj1 (reachable_results W self Hreach) keyword filepath).
    tauto.
  - intros self Hn. split; [apply multiprocess_search_directory_total|].
    intros ret log out Hcall keyword filepath Hk Hf.
    apply multiprocess_search_directory_ret in Hcall as ->; [|done].
    rewrite (listed_glob _ _ _ _ Hglob), in_result_merged_multiprocess.
    tauto.
Qed.

(** C1 on the demo platform: the keyword [Error] and the three files of
    [logs], four threads. *)
Lemma search_directory_exact_witness :
  glob demo "logs" "*.txt" =
    Return ["logs/a.txt"; "logs/b.txt"; "logs/locked.txt"]%string ∧
  reachable demo (Threaded.__init__ ["Error"%string] 4) ∧
  1 ≤ Threaded.num_threads (Threaded.__init__ ["Error"%string] 4) ∧
  (∃ ret self' log,
     Threaded.search_directory demo (Threaded.__init__ ["Error"%string] 4)
       "logs" "*.txt" ret self' log) ∧
  ∀ ret self' log,
    Threaded.search_directory demo (Threaded.__init__ ["Error"%string] 4)
      "logs" "*.txt" ret self' log →
    in_result ret "Error" "logs/a.txt" ∧
    ¬ in_result ret "Error" "logs/b.txt" ∧
    ¬ in_result ret "Error" "logs/locked.txt".
Proof.
  pose proof (proj1 (search_directory_exact demo "logs" "*.txt"
                       ["logs/a.txt"; "logs/b.txt"; "logs/locked.txt"]%string
                       eq_refl)
                (Threaded.__init__ ["Error"%string] 4)
                (reachable_init demo _ _) ltac:(simpl; lia))
    as [Hreturns Hexact].
  split; [reflexivity|]. split; [apply reachable_init|].
  split; [simpl; lia|]. split; [exact Hreturns|].
  intros ret self' log Hcall. split_and!.
  - apply (Hexact _ _ _ Hcall); [by_computation..|].
    exists "An ERROR occurred"%string, "an "%string, " occurred"%string.
    split; reflexivity.
  - rewrite (Hexact _ _ _ Hcall) by by_computation.
    intros (text & pre & post & [= <-] & Hsub).
    assert (str_in "error" "all fine" = true) as Hin
      by (apply str_in_spec; eauto).
    by vm_compute in Hin.
  - rewrite (Hexact _ _ _ Hcall) by by_computation.
    by intros (text & pre & post & [=] & _).
Defined.

(** ** Number of workers *)

(** C2: on the same keywords and the same directory, a run with one worker
    and a run with any number [N ≥ 1] of workers return the same mapping, in
    the lock-based and in the queue-based program, and such runs exist. *)
Theorem one_worker_or_many W (keywords : list string) directory file_pattern N :
  1 ≤ N →
  (∀ ret1 self1 log1 retN selfN logN,
     Threaded.search_directory W (Threaded.__init__ keywords 1)
       directory file_pattern ret1 self1 log1 →
     Threaded.search_directory W (Threaded.__init__ keywords N)
       directory file_pattern retN selfN logN →
     ret1 = retN) ∧
  (∀ ret1 log1 out1 retN logN outN,
     Multiprocess.search_directory W
       (Multiprocess.__init__ W keywords (Some 1))
       directory file_pattern ret1 log1 out1 →
     Multiprocess.search_directory W
       (Multiprocess.__init__ W keywords (Some N))
       directory file_pattern retN logN outN →
     ret1 = retN) ∧
  (∃ ret1 self1 log1 retN selfN logN,
     Threaded.search_directory W (Threaded.__init__ keywords 1)
       directory file_pattern ret1 self1 log1 ∧
     Threaded.search_directory W (Threaded.__init__ keywords N)
       directory file_pattern retN selfN logN) ∧
  (∃ ret1 log1 out1 retN logN outN,
     Multiprocess.search_directory W
       (Multiprocess.__init__ W keywords (Some 1))
       directory file_pattern ret1 log1 out1 ∧
     Multiprocess.search_directory W
       (Multiprocess.__init__ W keywords (Some N))
       directory file_pattern retN logN outN).
Proof.
  intros HN. split_and!.
  - intros ret1 self1 log1 retN selfN logN Hcall1 HcallN.
    apply threaded_search_directory_ret in Hcall1 as (-> & _); [|done].
    by apply threaded_search_directory_ret in HcallN as (-> & _).
  - intros ret1 log1 out1 retN logN outN Hcall1 HcallN.
    apply multiprocess_search_directory_ret in Hcall1 as ->; [|done].
    apply multiprocess_search_directory_ret in HcallN as ->;
      [done | by rewrite multiprocess_init_num_processes].
  - destruct (threaded_search_directory_total W
                (Threaded.__init__ keywords 1) directory file_pattern)
      as (ret1 & self1 & log1 & ?).
    destruct (threaded_search_directory_total W
                (Threaded.__init__ keywords N) directory file_pattern)
      as (retN & selfN & logN & ?).
    by exists ret1, self1, log1, retN, selfN, logN.
  - destruct (multiprocess_search_directory_total W
                (Multiprocess.__init__ W keywords (Some 1))
                directory file_pattern) as (ret1 & log1 & out1 & ?).
    destruct (multiprocess_search_directory_total W
                (Multiprocess.__init__ W keywords (Some N))
                directory file_pattern) as (retN & logN & outN & ?).
    by exists ret1, log1, out1, retN, logN, outN.
Qed.

(** C2 on the demo platform: one thread against three threads on [logs]. *)
Lemma one_worker_or_many_witness :
  1 ≤ 3 ∧
  ∀ ret1 self1 log1 ret3 self3 log3,
    Threaded.search_directory demo (Threaded.__init__ ["Error"%string] 1)
      "logs" "*.txt" ret1 self1 log1 →
    Threaded.search_directory demo (Threaded.__init__ ["Error"%string] 3)
      "logs" "*.txt" ret3 self3 log3 →
    ret1 = ret3.
Proof.
  split; [lia|].
  exact (proj1 (one_worker_or_many demo ["Error"%string] "logs" "*.txt" 3
                  ltac:(lia))).
Defined.

(** ** Errors in one file *)



(** ** The chunks cover the file list *)

(** C4: for every file list, the empty one included, and every
    [num_workers ≥ 1] the chunks are consecutive slices of the input, in
    input order, that follow each other without overlap, and their
    concatenation is the input list: nothing is left out and nothing occurs
    twice. *)
Theorem file_chunks_partition (all_files : list string) num_workers :
  1 ≤ num_workers →
  ∃ chunks,
    file_chunks all_files num_workers = Return chunks ∧
    concat chunks = all_files ∧
    (∀ i chunk, chunks !! i = Some chunk →
       chunk = take (chunk_size (length all_files) num_workers)
                 (drop (i * chunk_size (length all_files) num_workers)
                       all_files)) ∧
    (∀ i j ci cj, (i < j)%nat →
       chunks !! i = Some ci → chunks !! j = Some cj →
       ∃ before between after,
         all_files = before ++ ci ++ between ++ cj ++ after) ∧
    (NoDup all_files →
     ∀ i j ci cj, i ≠ j →
       chunks !! i = Some ci → chunks !! j = Some cj → ci ## cj).
Proof.
  intros Hw.
  destruct (file_chunks all_files num_workers) as [chunks|e] eqn:Hchunks;
    [|by rewrite file_chunks_pos in Hchunks].
  pose proof (concat_file_chunks _ _ _ Hw Hchunks) as Hconcat.
  assert (∀ i j ci cj, (i < j)%nat →
            chunks !! i = Some ci → chunks !! j = Some cj →
            ∃ before between after,
              all_files = before ++ ci ++ between ++ cj ++ after) as Hsplit.
  { intros i j ci cj Hij Hi Hj. rewrite <- Hconcat.
    by eapply concat_lookup_split. }
  exists chunks. split_and!; [done | done | | done |].
  - intros i chunk Hi. by eapply lookup_file_chunks.
  - intros Hnodup i j ci cj Hij Hi Hj x Hxi Hxj.
    destruct (decide (i < j)%nat).
    + destruct (Hsplit i j ci cj) as (before & between & after & Heq);
        [done..|].
      rewrite Heq in Hnodup.
      apply NoDup_app in Hnodup as (_ & _ & Hnodup).
      apply NoDup_app in Hnodup as (_ & Hnot & _).
      apply (Hnot x Hxi). set_solver.
    + destruct (Hsplit j i cj ci) as (before & between & after & Heq);
        [lia | done..|].
      rewrite Heq in Hnodup.
      apply NoDup_app in Hnodup as (_ & _ & Hnodup).
      apply NoDup_app in Hnodup as (_ & Hnot & _).
      apply (Hnot x Hxj). set_solver.
Qed.

(** C4 on five files and two workers. *)
Lemma file_chunks_partition_witness :
  1 ≤ 2 ∧
  ∃ chunks,
    file_chunks ["a"; "b"; "c"; "d"; "e"]%string 2 = Return chunks ∧
    concat chunks = ["a"; "b"; "c"; "d"; "e"]%string.
Proof.
  split; [lia|].
  destruct (file_chunks_partition ["a"; "b"; "c"; "d"; "e"]%string 2
              ltac:(lia)) as (chunks & Hchunks & Hconcat & _).
  by exists chunks.
Defined.

(** ** Evenness of the chunks *)

(** C5 does not hold of the code: eight files and four workers give three
    chunks of sizes 3, 3 and 2, not four chunks of ceil(8/4) = 2 files. *)
Theorem eight_files_four_workers :
  files_per_worker ["f1"; "f2"; "f3"; "f4"; "f5"; "f6"; "f7"; "f8"]%string 4
    = Return 3 ∧
  file_chunks ["f1"; "f2"; "f3"; "f4"; "f5"; "f6"; "f7"; "f8"]%string 4
    = Return [["f1"; "f2"; "f3"]; ["f4"; "f5"; "f6"]; ["f7"; "f8"]]%string.
Proof. split; reflexivity. Qed.

(** ** The result across calls *)

(** C6 does not hold of the lock-based program: a searcher that has searched
    directory [old] and is then asked to search directory [logs] returns a
    file of [old], which is not among the files of [logs]. *)
Lemma results_survive_the_call :
  glob demo "logs" "*.txt" =
    Return ["logs/a.txt"; "logs/b.txt"; "logs/locked.txt"]%string ∧
  ("old/c.txt"%string ∉
     ["logs/a.txt"; "logs/b.txt"; "logs/locked.txt"]%string) ∧
  (∃ ret1 self1 log1 ret2 self2 log2,
     Threaded.search_directory demo (Threaded.__init__ ["Error"%string] 4)
       "old" "*.txt" ret1 self1 log1 ∧
     Threaded.search_directory demo self1 "logs" "*.txt" ret2 self2 log2) ∧
  (∀ ret1 self1 log1 ret2 self2 log2,
     Threaded.search_directory demo (Threaded.__init__ ["Error"%string] 4)
       "old" "*.txt" ret1 self1 log1 →
     Threaded.search_directory demo self1 "logs" "*.txt" ret2 self2 log2 →
     in_result ret2 "Error" "old/c.txt").
Proof.
  split; [reflexivity|]. split; [by_computation|]. split.
  - destruct (threaded_search_directory_total demo
                (Threaded.__init__ ["Error"%string] 4) "old" "*.txt")
      as (ret1 & self1 & log1 & Hcall1).
    destruct (threaded_search_directory_total demo self1 "logs" "*.txt")
      as (ret2 & self2 & log2 & Hcall2).
    by exists ret1, self1, log1, ret2, self2, log2.
  - intros ret1 self1 log1 ret2 self2 log2 Hcall1 Hcall2.
    apply threaded_search_directory_any in Hcall1 as (-> & Hself1 & _).
    apply threaded_search_directory_any in Hcall2 as (-> & _).
    apply in_result_lookup_total, merged_grows. rewrite Hself1.
    apply elem_of_merged. right. exists "old/c.txt"%string.
    split; [by_computation|].
    apply elem_of_threaded_search_file. split; [done|].
    split; [by_computation|].
    exists "Error again"%string. split; reflexivity.
Qed.

(** C6, amended: in the queue-based program the result starts empty in every
    call and holds only files listed by that call; in the lock-based program
    the result is created empty with the searcher, every step of a worker
    only adds to it, and a call returns, and keeps in the searcher, the
    key-wise union of what the searcher held before with the matches of the
    files scanned by this call. *)
Theorem results_accumulate W :
  (∀ keywords n, Threaded.results (Threaded.__init__ keywords n) = ∅) ∧
  (∀ self σ σ' keyword,
     Threaded.process_files_step W self σ σ' →
     Threaded.shared σ !!! keyword ⊆ Threaded.shared σ' !!! keyword) ∧
  (∀ self directory file_pattern ret self' log,
     Threaded.search_directory W self directory file_pattern ret self' log →
     Threaded.results self' = ret ∧
     ∀ keyword filepath,
       in_result ret keyword filepath ↔
       in_result (Threaded.results self) keyword filepath ∨
       (filepath ∈ scanned (Threaded.num_threads self)
                     (listed W directory file_pattern) ∧
        keyword ∈ Threaded.keywords self ∧ occurs W keyword filepath)) ∧
  Multiprocess.collect [] = ∅ ∧
  (∀ received local keyword,
     Multiprocess.collect received !!! keyword ⊆
     Multiprocess.collect (received ++ [local]) !!! keyword) ∧
  (∀ self directory file_pattern ret log out,
     Multiprocess.search_directory W self directory file_pattern ret log out →
     ∀ keyword filepath,
       in_result ret keyword filepath ↔
       filepath ∈ scanned (Multiprocess.num_processes self)
                    (listed W directory file_pattern) ∧
       keyword ∈ Multiprocess.keywords self ∧ occurs W keyword filepath).
Proof.
  split_and!.
  - done.
  - intros self σ σ' keyword [σ0 i filepath files Hi]. simpl.
    apply merge_results_grows.
  - intros self directory file_pattern ret self' log Hcall. split.
    + by apply threaded_search_directory_any in Hcall as (_ & ? & _).
    + intros keyword filepath. by eapply threaded_in_result.
  - done.
  - intros received local keyword. unfold Multiprocess.collect.
    rewrite foldl_app. apply merge_results_grows.
  - intros self directory file_pattern ret log out Hcall keyword filepath.
    apply multiprocess_search_directory_any in Hcall as ->.
    apply in_result_merged_multiprocess.
Qed.

(** C6 on the demo platform: a new searcher holds nothing, and a search of
    [logs] by the queue-based program returns the matching file of [logs]
    and no file of [old]. *)
Lemma results_accumulate_witness :
  Threaded.results (Threaded.__init__ ["Error"%string] 4) = ∅ ∧
  ∀ ret log out,
    Multiprocess.search_directory demo
      (Multiprocess.__init__ demo ["Error"%string] None)
      "logs" "*.txt" ret log out →
    in_result ret "Error" "logs/a.txt" ∧ ¬ in_result ret "Error" "old/c.txt".
Proof.
  pose proof (results_accumulate demo) as (Hnew & _ & _ & _ & _ & Hqueue).
  split; [apply Hnew|].
  intros ret log out Hcall.
  pose proof (Hqueue _ _ _ _ _ _ Hcall) as Hexact.
  split.
  - apply Hexact. split; [by_computation|]. split; [by_computation|].
    exists "An ERROR occurred"%string, "an "%string, " occurred"%string.
    split; reflexivity.
  - rewrite Hexact. intros (Hin & _). revert Hin. by_computation.
Defined.

(** ** Failure of the directory listing *)

(** C7: when listing the directory raises, the [try] block raises, the
    [except] clause catches it, and [search_directory] logs the error and
    returns: the current [self.results] in the lock-based program, an empty
    dictionary in the queue-based one.  No other outcome is possible. *)
Theorem listing_failure_is_caught W directory file_pattern e :
  glob W directory file_pattern = Raise e →
  (∀ self,
     Threaded.try_block W self directory file_pattern (Raise e) self [] ∧
     Threaded.search_directory W self directory file_pattern
       (Threaded.results self) self [Log ERROR (ScanFailed e)] ∧
     ∀ ret self' log,
       Threaded.search_directory W self directory file_pattern ret self' log →
       ret = Threaded.results self ∧ self' = self ∧
       log = [Log ERROR (ScanFailed e)]) ∧
  (∀ self,
     Multiprocess.try_block W self directory file_pattern (Raise e) [] [] ∧
     Multiprocess.search_directory W self directory file_pattern
       ∅ [Log ERROR (ScanFailed e)] [] ∧
     ∀ ret log out,
       Multiprocess.search_directory W self directory file_pattern
         ret log out →
       ret = ∅ ∧ log = [Log ERROR (ScanFailed e)] ∧ out = []).
Proof.
  intros Hglob. split; intros self.
  - assert (Threaded.try_block W self directory file_pattern (Raise e) self [])
      as Htry by (by apply Threaded.listing_raises).
    split_and!; [done | by apply (Threaded.except_Exception _ _ _ _ _ _ _ Htry) |].
    intros ret self' log [ret' self'' log' Htry'|e' self'' log' Htry'];
      inversion Htry' as [e'' Hg|Hg|? ? Hg|? ? ? Hg]; subst;
      rewrite Hglob in Hg; try discriminate.
    by injection Hg as <-.
  - assert (Multiprocess.try_block W self directory file_pattern (Raise e) [] [])
      as Htry by (by apply Multiprocess.listing_raises).
    split_and!;
      [done | by apply (Multiprocess.except_Exception _ _ _ _ _ _ _ Htry) |].
    intros ret log out [ret' log' out' Htry'|e' log' out' Htry'];
      inversion Htry' as [e'' Hg|Hg|? ? Hg|? ? ? Hg]; subst;
      rewrite Hglob in Hg; try discriminate.
    by injection Hg as <-.
Qed.

(** C7 on the demo platform: an empty pattern makes the listing raise. *)
Lemma listing_failure_is_caught_witness :
  glob demo "logs" "" = Raise ValueError ∧
  Threaded.search_directory demo (Threaded.__init__ ["Error"%string] 4)
    "logs" "" ∅ (Threaded.__init__ ["Error"%string] 4)
    [Log ERROR (ScanFailed ValueError)].
Proof.
  split; [reflexivity|].
  apply (listing_failure_is_caught demo "logs" "" ValueError eq_refl).
Defined.

(** ** Order of the merges *)



(** ** Keys without files *)

Lemma is_Some_in_result (results : gmap string (gset string)) keyword :
  no_empty_entry results →
  is_Some (results !! keyword) ↔ ∃ filepath, in_result results keyword filepath.
Proof.
  intros Hne. split.
  - intros [files Hlookup].
    destruct (set_choose_L files) as [f Hf]; [by eapply Hne|].
    by exists f, files.
  - intros (f & files & Hlookup & _). eauto.
Qed.

Lemma is_Some_scan_content W keywords filepath content keyword :
  is_Some (scan_content W keywords filepath content !! keyword) ↔
  keyword ∈ keywords ∧ str_in (lower W keyword) content = true.
Proof.
  rewrite lookup_scan_content. case_decide as Hmatch.
  - split; [done | eauto].
  - split; [by intros [? ?] | done].
Qed.

Lemma is_Some_threaded_search_file W self filepath keyword :
  is_Some ((Threaded.search_file W self filepath).1 !! keyword) ↔
  keyword ∈ Threaded.keywords self ∧ occurs W keyword filepath.
Proof.
  rewrite <- found_occurs. unfold Threaded.search_file, found.
  destruct (read_text W filepath) as [text|e]; simpl.
  - rewrite is_Some_scan_content. split.
    + intros [? ?]. eauto.
    + by intros (? & text' & [= <-] & ?).
  - rewrite lookup_empty. split; [by intros [? ?]|].
    by intros (_ & text & ? & _).
Qed.

Lemma is_Some_multiprocess_search_file W filepath keywords keyword :
  is_Some ((Multiprocess.search_file W filepath keywords).1 !! keyword) ↔
  keyword ∈ keywords ∧ occurs W keyword filepath.
Proof.
  rewrite <- found_occurs. unfold Multiprocess.search_file, found.
  destruct (read_text W filepath) as [text|e]; simpl.
  - rewrite is_Some_scan_content. split.
    + intros [? ?]. eauto.
    + by intros (? & text' & [= <-] & ?).
  - rewrite lookup_empty. split; [by intros [? ?]|].
    by intros (_ & text & ? & _).
Qed.

(** C9: every key of the mapping returned by [search_file] is bound to a
    non-empty set, the singleton of the file, and so is every key of the
    result of [search_directory], in the lock-based program (for a new
    searcher and for one that has been used before) and in the queue-based
    program.  A keyword is a key of the mapping returned by [search_file]
    exactly when it is one of the keywords and occurs in the file, and a key
    of the result of [search_directory] only when it is one of the keywords
    and occurs in some file, for a new searcher and in the queue-based
    program exactly when it occurs in a scanned file: a keyword without a
    matching file is not a key. *)
Theorem no_empty_sets W :
  (∀ self filepath keyword files,
     (Threaded.search_file W self filepath).1 !! keyword = Some files →
     files = {[filepath]} ∧ files ≠ ∅) ∧
  (∀ filepath keywords keyword files,
     (Multiprocess.search_file W filepath keywords).1 !! keyword
       = Some files →
     files = {[filepath]} ∧ files ≠ ∅) ∧
  (∀ self directory file_pattern ret self' log,
     reachable W self →
     Threaded.search_directory W self directory file_pattern ret self' log →
     ∀ keyword files, ret !! keyword = Some files → files ≠ ∅) ∧
  (∀ self directory file_pattern ret log out,
     Multiprocess.search_directory W self directory file_pattern ret log out →
     ∀ keyword files, ret !! keyword = Some files → files ≠ ∅) ∧
  (∀ self filepath keyword,
     is_Some ((Threaded.search_file W self filepath).1 !! keyword) ↔
     keyword ∈ Threaded.keywords self ∧ occurs W keyword filepath) ∧
  (∀ filepath keywords keyword,
     is_Some ((Multiprocess.search_file W filepath keywords).1 !! keyword) ↔
     keyword ∈ keywords ∧ occurs W keyword filepath) ∧
  (∀ self directory file_pattern ret self' log keyword,
     reachable W self →
     Threaded.search_directory W self directory file_pattern ret self' log →
     is_Some (ret !! keyword) →
     keyword ∈ Threaded.keywords self ∧
     ∃ filepath, occurs W keyword filepath ∧
                 in_result ret keyword filepath) ∧
  (∀ (keywords : list string) n directory file_pattern ret self' log keyword,
     Threaded.search_directory W (Threaded.__init__ keywords n)
       directory file_pattern ret self' log →
     is_Some (ret !! keyword) ↔
     keyword ∈ keywords ∧
     ∃ filepath, filepath ∈ scanned n (listed W directory file_pattern) ∧
                 occurs W keyword filepath) ∧
  (∀ self directory file_pattern ret log out keyword,
     Multiprocess.search_directory W self directory file_pattern ret log out →
     is_Some (ret !! keyword) ↔
     keyword ∈ Multiprocess.keywords self ∧
     ∃ filepath,
       filepath ∈ scanned (Multiprocess.num_processes self)
                    (listed W directory file_pattern) ∧
       occurs W keyword filepath).
Proof.
  assert (∀ keywords filepath content keyword files,
            scan_content W keywords filepath content !! keyword = Some files →
            files = {[filepath]} ∧ files ≠ ∅) as Hscan.
  { intros keywords filepath content keyword files.
    rewrite lookup_scan_content. case_decide; [|done].
    intros [= <-]. split; [done | set_solver]. }
  assert (∀ self directory file_pattern ret self' log,
            reachable W self →
            Threaded.search_directory W self directory file_pattern
              ret self' log →
            no_empty_entry ret) as Hthreads.
  { intros self directory file_pattern ret self' log Hreach Hcall.
    apply threaded_search_directory_any in Hcall as (-> & _).
    apply no_empty_entry_merged; [by apply (reachable_results W self)|].
    intros f. apply no_empty_entry_threaded_search_file. }
  assert (∀ self directory file_pattern ret log out,
            Multiprocess.search_directory W self directory file_pattern
              ret log out →
            no_empty_entry ret) as Hprocesses.
  { intros self directory file_pattern ret log out Hcall.
    apply multiprocess_search_directory_any in Hcall as ->.
    apply no_empty_entry_merged; [apply no_empty_entry_empty|].
    intros f. apply no_empty_entry_multiprocess_search_file. }
  split_and!.
  - intros self filepath keyword files. unfold Threaded.search_file.
    destruct (read_text W filepath); simpl; [apply Hscan|].
    by rewrite lookup_empty.
  - intros filepath keywords keyword files. unfold Multiprocess.search_file.
    destruct (read_text W filepath); simpl; [apply Hscan|].
    by rewrite lookup_empty.
  - intros self directory file_pattern ret self' log Hreach Hcall.
    by eapply Hthreads.
  - intros self directory file_pattern ret log out Hcall.
    by eapply Hprocesses.
  - apply is_Some_threaded_search_file.
  - apply is_Some_multiprocess_search_file.
  - intros self directory file_pattern ret self' log keyword Hreach Hcall.
    rewrite is_Some_in_result by (by eapply Hthreads).
    intros (filepath & Hin).
    pose proof Hin as [Hold|(_ & ? & ?)]%(threaded_in_result _ _ _ _ _ _ _ _ _
                                             Hcall).
    + destruct (proj1 (reachable_results W self Hreach) _ _ Hold). eauto.
    + eauto.
  - intros keywords n directory file_pattern ret self' log keyword Hcall.
    rewrite is_Some_in_result
      by (eapply Hthreads; [apply reachable_init | done]).
    setoid_rewrite (threaded_in_result _ _ _ _ _ _ _ _ _ Hcall). simpl.
    split.
    + intros (filepath & [(files & Hlookup & _)|(? & Hk & ?)]);
        [by rewrite lookup_empty in Hlookup|].
      apply elem_of_list_to_set in Hk. eauto.
    + intros (Hk & filepath & ? & ?). exists filepath. right.
      split; [done|]. split; [|done]. by apply elem_of_list_to_set.
  - intros self directory file_pattern ret log out keyword Hcall.
    rewrite is_Some_in_result by (by eapply Hprocesses).
    pose proof (multiprocess_search_directory_any _ _ _ _ _ _ _ Hcall) as ->.
    setoid_rewrite in_result_merged_multiprocess. naive_solver.
Qed.

(** C9 on the demo platform: of the keywords [Error] and [fine] only the
    first is a key of the result for [logs/a.txt]. *)
Lemma no_empty_sets_witness :
  (Multiprocess.search_file demo "logs/a.txt" {["Error"; "fine"]}%string).1
    !! "Error"%string = Some {["logs/a.txt"%string]} ∧
  (Multiprocess.search_file demo "logs/a.txt" {["Error"; "fine"]}%string).1
    !! "fine"%string = None ∧
  ({["logs/a.txt"%string]} : gset string) ≠ ∅ ∧
  ¬ occurs demo "fine" "logs/a.txt".
Proof.
  assert ((Multiprocess.search_file demo "logs/a.txt"
             {["Error"; "fine"]}%string).1 !! "Error"%string
          = Some {["logs/a.txt"%string]}) as Hlookup
    by (vm_compute; reflexivity).
  assert ((Multiprocess.search_file demo "logs/a.txt"
             {["Error"; "fine"]}%string).1 !! "fine"%string = None) as Hnone
    by (vm_compute; reflexivity).
  pose proof (no_empty_sets demo) as (_ & Hfile & _ & _ & _ & Hkey & _).
  split; [exact Hlookup|]. split; [exact Hnone|].
  split; [exact (proj2 (Hfile _ _ _ _ Hlookup))|].
  intros Hoccurs.
  assert (is_Some ((Multiprocess.search_file demo "logs/a.txt"
                      {["Error"; "fine"]}%string).1 !! "fine"%string))
    as [files Hsome].
  { apply Hkey. split; [by_computation | exact Hoccurs]. }
  rewrite Hnone in Hsome. discriminate.
Defined.

(** ** Number of chunks *)

(** C10: for [n ≥ 1] files and [w ≥ 1] workers the chunk size is
    [n // w + 1], the number of chunks is [ceil(n / chunk size)], and that
    number is at most [w]. *)
Theorem chunk_count_at_most_workers (all_files : list string) num_workers :
  (1 ≤ length all_files)%nat →
  1 ≤ num_workers →
  ∃ per_worker chunks,
    files_per_worker all_files num_workers = Return per_worker ∧
    per_worker = Z.of_nat (length all_files) `div` num_workers + 1 ∧
    file_chunks all_files num_workers = Return chunks ∧
    (Z.of_nat (length chunks) - 1) * per_worker < Z.of_nat (length all_files) ∧
    Z.of_nat (length all_files) ≤ Z.of_nat (length chunks) * per_worker ∧
    Z.of_nat (length chunks) ≤ num_workers.
Proof.
  intros Hn Hw.
  exists (Z.of_nat (length all_files) `div` num_workers + 1).
  eexists. split_and!.
  - unfold files_per_worker, floordiv. by rewrite decide_False by lia.
  - done.
  - by apply file_chunks_pos.
  - rewrite length_fmap, length_seq.
    pose proof (chunk_size_pos (length all_files) num_workers Hw) as Hpos.
    assert (Z.of_nat (chunk_size (length all_files) num_workers) =
            Z.of_nat (length all_files) `div` num_workers + 1) as <-
      by (unfold chunk_size in *; lia).
    unfold chunk_count.
    set (s := chunk_size (length all_files) num_workers) in *.
    set (n := length all_files) in *.
    pose proof (Z.div_mod (Z.of_nat n + Z.of_nat s - 1) (Z.of_nat s)).
    pose proof (Z.mod_pos_bound (Z.of_nat n + Z.of_nat s - 1) (Z.of_nat s)).
    assert (0 ≤ (Z.of_nat n + Z.of_nat s - 1) `div` Z.of_nat s)
      by (apply Z.div_pos; lia).
    rewrite Z2Nat.id by done. nia.
  - rewrite length_fmap, length_seq.
    pose proof (chunk_size_pos (length all_files) num_workers Hw) as Hpos.
    pose proof (chunk_count_covers (length all_files) num_workers Hw).
    assert (Z.of_nat (chunk_size (length all_files) num_workers) =
            Z.of_nat (length all_files) `div` num_workers + 1) as <-
      by (unfold chunk_size in *; lia).
    lia.
  - rewrite length_fmap, length_seq. by apply chunk_count_le.
Qed.

(** C10 on five files and two workers. *)
Lemma chunk_count_at_most_workers_witness :
  (1 ≤ length ["a"; "b"; "c"; "d"; "e"]%string)%nat ∧ 1 ≤ 2 ∧
  ∃ chunks,
    file_chunks ["a"; "b"; "c"; "d"; "e"]%string 2 = Return chunks ∧
    Z.of_nat (length chunks) ≤ 2.
Proof.
  split; [simpl; lia|]. split; [lia|].
  destruct (chunk_count_at_most_workers ["a"; "b"; "c"; "d"; "e"]%string 2
              ltac:(simpl; lia) ltac:(lia))
    as (per_worker & chunks & _ & _ & Hchunks & _ & _ & Hle).
  by exists chunks.
Defined.

(** * Further properties of the code *)

Example strip_example : ascii_strip "  two words
" = "two words"%string.
Proof. reflexivity. Qed.

(** ** Sizes of the chunks *)

Lemma chunk_count_start n w i :
  1 ≤ w → (i < chunk_count n w)%nat → (i * chunk_size n w < n)%nat.
Proof.
  intros Hw Hi. pose proof (chunk_size_pos n w Hw) as Hpos.
  unfold chunk_count in Hi. set (s := chunk_size n w) in *.
  pose proof (Z.div_mod (Z.of_nat n + Z.of_nat s - 1) (Z.of_nat s)) as Hdm.
  pose proof (Z.mod_pos_bound (Z.of_nat n + Z.of_nat s - 1) (Z.of_nat s)).
  assert (0 ≤ (Z.of_nat n + Z.of_nat s - 1) `div` Z.of_nat s)
    by (apply Z.div_pos; lia).
  nia.
Qed.

Lemma length_file_chunks (all_files : list string) w chunks :
  1 ≤ w → file_chunks all_files w = Return chunks →
  length chunks = chunk_count (length all_files) w.
Proof.
  intros Hw. rewrite file_chunks_pos by done. intros [= <-].
  by rewrite length_fmap, length_seq.
Qed.

(** X1: for [num_workers ≥ 1] every chunk is non-empty and has at most
    [len(all_files) // num_workers + 1] files, and every chunk but the last
    has exactly that many. *)
Theorem file_chunks_sizes (all_files : list string) num_workers chunks i chunk :
  1 ≤ num_workers →
  file_chunks all_files num_workers = Return chunks →
  chunks !! i = Some chunk →
  chunk ≠ [] ∧
  (length chunk ≤ chunk_size (length all_files) num_workers)%nat ∧
  (Z.of_nat (chunk_size (length all_files) num_workers) =
   Z.of_nat (length all_files) `div` num_workers + 1) ∧
  ((S i < length chunks)%nat →
   length chunk = chunk_size (length all_files) num_workers).
Proof.
  intros Hw Hchunks Hi.
  pose proof (lookup_file_chunks _ _ _ _ _ Hw Hchunks Hi) as ->.
  pose proof (length_file_chunks _ _ _ Hw Hchunks) as Hlen.
  pose proof (chunk_size_pos (length all_files) num_workers Hw) as Hpos.
  assert (i < chunk_count (length all_files) num_workers)%nat as Hlt
    by (rewrite <- Hlen; by eapply lookup_lt_Some).
  pose proof (chunk_count_start _ _ _ Hw Hlt) as Hstart.
  split_and!.
  - intros Hnil%(f_equal length).
    rewrite length_take, length_drop in Hnil. simpl in Hnil. lia.
  - rewrite length_take. lia.
  - unfold chunk_size.
    assert (0 ≤ Z.of_nat (length all_files) `div` num_workers)
      by (apply Z.div_pos; lia). lia.
  - intros Hnext. rewrite Hlen in Hnext.
    pose proof (chunk_count_start _ _ _ Hw Hnext).
    rewrite length_take, length_drop. lia.
Qed.

(** X1 on five files and two workers. *)
Lemma file_chunks_sizes_witness :
  1 ≤ 2 ∧
  file_chunks ["a"; "b"; "c"; "d"; "e"]%string 2
    = Return [["a"; "b"; "c"]; ["d"; "e"]]%string ∧
  [["a"; "b"; "c"]; ["d"; "e"]]%string !! 1%nat = Some ["d"; "e"]%string ∧
  ["d"; "e"]%string ≠ [] ∧
  (length ["d"; "e"]%string
   ≤ chunk_size (length ["a"; "b"; "c"; "d"; "e"]%string) 2)%nat.
Proof.
  pose proof (file_chunks_sizes ["a"; "b"; "c"; "d"; "e"]%string 2
                [["a"; "b"; "c"]; ["d"; "e"]]%string 1 ["d"; "e"]%string
                ltac:(lia) eq_refl eq_refl) as (Hne & Hle & _).
  split; [lia|]. split; [reflexivity|]. split; [reflexivity|]. by split.
Defined.

(** X2: for [num_workers ≥ 1] there are as many chunks as workers exactly
    when [n // num_workers + n % num_workers ≥ num_workers], [n] being the
    number of files; otherwise some worker gets no chunk. *)
Theorem all_workers_used_iff (all_files : list string) num_workers chunks :
  1 ≤ num_workers →
  file_chunks all_files num_workers = Return chunks →
  Z.of_nat (length chunks) = num_workers ↔
  num_workers ≤ Z.of_nat (length all_files) `div` num_workers +
                Z.of_nat (length all_files) `mod` num_workers.
Proof.
  intros Hw Hchunks.
  rewrite (length_file_chunks _ _ _ Hw Hchunks).
  set (n := length all_files).
  pose proof (chunk_size_pos n num_workers Hw) as Hpos.
  pose proof (chunk_count_le n num_workers Hw) as Hle.
  pose proof (chunk_count_covers n num_workers Hw) as Hcov.
  assert (Z.of_nat (chunk_size n num_workers) =
          Z.of_nat n `div` num_workers + 1) as Hs.
  { unfold chunk_size.
    assert (0 ≤ Z.of_nat n `div` num_workers) by (apply Z.div_pos; lia).
    lia. }
  pose proof (Z.div_mod (Z.of_nat n) num_workers ltac:(lia)) as Hdm.
  pose proof (Z.mod_pos_bound (Z.of_nat n) num_workers ltac:(lia)).
  assert (0 ≤ Z.of_nat n `div` num_workers) by (apply Z.div_pos; lia).
  split.
  - intros Hall.
    destruct (decide (chunk_count n num_workers = 0%nat)) as [Hzero|Hzero];
      [lia|].
    pose proof (chunk_count_start n num_workers
                  (chunk_count n num_workers - 1) Hw ltac:(lia)) as Hstart.
    nia.
  - intros Hqr.
    assert (¬ Z.of_nat (chunk_count n num_workers) ≤ num_workers - 1);
      [|lia].
    intros Hfew. nia.
Qed.

(** X2 on seven files and four workers: 7 // 4 + 7 % 4 = 4. *)
Lemma all_workers_used_iff_witness :
  1 ≤ 4 ∧
  file_chunks ["f1"; "f2"; "f3"; "f4"; "f5"; "f6"; "f7"]%string 4
    = Return [["f1"; "f2"]; ["f3"; "f4"]; ["f5"; "f6"]; ["f7"]]%string ∧
  4 ≤ 7 `div` 4 + 7 `mod` 4.
Proof.
  pose proof (all_workers_used_iff
                ["f1"; "f2"; "f3"; "f4"; "f5"; "f6"; "f7"]%string 4
                [["f1"; "f2"]; ["f3"; "f4"]; ["f5"; "f6"]; ["f7"]]%string
                ltac:(lia) eq_refl) as [Hused _].
  split; [lia|]. split; [reflexivity|]. by apply Hused.
Defined.

Lemma singleton_slices {A} (l : list A) :
  (λ j, slice l (j * 1) (j * 1 + 1))%nat <$> seq 0 (length l) =
  (λ x, [x]) <$> l.
Proof.
  apply list_eq. intros i. rewrite !list_lookup_fmap.
  destruct (decide (i < length l)%nat) as [Hi|Hi].
  - destruct (lookup_lt_is_Some_2 l i Hi) as [x Hx].
    rewrite Hx. rewrite (proj2 (lookup_seq 0 (length l) i i)) by done. simpl.
    f_equal. unfold slice.
    replace (i * 1 + 1 - i * 1)%nat with 1%nat by lia.
    rewrite Nat.mul_1_r. rewrite (drop_S l x i Hx). done.
  - rewrite (lookup_ge_None_2 l i) by lia.
    by rewrite (lookup_ge_None_2 (seq 0 (length l)) i)
      by (rewrite length_seq; lia).
Qed.

(** X3: with one worker a non-empty file list is one chunk, and with
    more workers than files every file is a chunk of its own. *)
Theorem file_chunks_extremes (all_files : list string) :
  (all_files ≠ [] → file_chunks all_files 1 = Return [all_files]) ∧
  (∀ num_workers,
     Z.of_nat (length all_files) < num_workers →
     file_chunks all_files num_workers =
     Return ((λ filepath, [filepath]) <$> all_files)).
Proof.
  split.
  - intros Hne. rewrite file_chunks_pos by lia.
    assert (1 ≤ length all_files)%nat as Hn
      by (destruct all_files; [done | simpl; lia]).
    assert (chunk_size (length all_files) 1 = S (length all_files)) as Hs
      by (unfold chunk_size; rewrite Z.div_1_r; lia).
    assert (chunk_count (length all_files) 1 = 1%nat) as Hc.
    { unfold chunk_count. rewrite Hs.
      assert ((Z.of_nat (length all_files) + Z.of_nat (S (length all_files)) - 1)
                `div` Z.of_nat (S (length all_files)) = 1) as ->; [|done].
      symmetry. apply (Z.div_unique_pos _ _ 1 (Z.of_nat (length all_files) - 1));
        lia. }
    rewrite Hs, Hc. simpl. unfold slice. simpl.
    destruct all_files as [|f files]; [done|]. simpl.
    by rewrite take_ge by lia.
  - intros w Hw.
    assert (1 ≤ w) as Hw1 by lia. rewrite file_chunks_pos by done.
    assert (chunk_size (length all_files) w = 1%nat) as Hs
      by (unfold chunk_size; rewrite Z.div_small by lia; lia).
    assert (chunk_count (length all_files) w = length all_files) as Hc
      by (unfold chunk_count; rewrite Hs; simpl;
          rewrite Z.div_1_r; lia).
    rewrite Hs, Hc. by rewrite singleton_slices.
Qed.

(** X3 on three files, with one worker and with eight. *)
Lemma file_chunks_extremes_witness :
  ["a"; "b"; "c"]%string ≠ [] ∧
  Z.of_nat (length ["a"; "b"; "c"]%string) < 8 ∧
  file_chunks ["a"; "b"; "c"]%string 1 = Return [["a"; "b"; "c"]]%string ∧
  file_chunks ["a"; "b"; "c"]%string 8
    = Return [["a"]; ["b"]; ["c"]]%string.
Proof.
  pose proof (file_chunks_extremes ["a"; "b"; "c"]%string) as [Hone Hmany].
  split; [done|]. split; [simpl; lia|].
  split; [by apply Hone | apply (Hmany 8); simpl; lia].
Defined.

(** ** Worker counts that are not positive *)

Lemma threaded_submit_zero self all_files :
  Threaded.num_threads self = 0 →
  Threaded.submit self all_files = Raise ZeroDivisionError.
Proof.
  intros Hn. unfold Threaded.submit, file_chunks, files_per_worker, floordiv.
  by rewrite Hn.
Qed.

Lemma file_chunks_negative (all_files : list string) w :
  w < 0 → all_files ≠ [] →
  file_chunks all_files w =
  if decide (Z.of_nat (length all_files) ≤ - w)
  then Raise ValueError else Return [].
Proof.
  intros Hw Hne.
  assert (1 ≤ length all_files)%nat as Hn
    by (destruct all_files; [done | simpl; lia]).
  unfold file_chunks, files_per_worker, floordiv, range0.
  rewrite decide_False by lia. cbn [bind].
  pose proof (Z.div_mod (Z.of_nat (length all_files)) w ltac:(lia)) as Hdm.
  pose proof (Z.mod_neg_bound (Z.of_nat (length all_files)) w ltac:(lia)).
  destruct (decide (Z.of_nat (length all_files) ≤ - w)) as [Hsmall|Hbig].
  - assert (Z.of_nat (length all_files) `div` w = -1) as Hq by nia.
    by rewrite decide_True by lia.
  - set (q := Z.of_nat (length all_files) `div` w) in *.
    assert (q + 1 < 0).
    { destruct (decide (q ≤ -2)); [lia|].
      assert (w * (q + 1) ≤ 0) by (apply Z.mul_nonpos_nonneg; lia). lia. }
    rewrite decide_False by lia. by rewrite decide_True by lia.
Qed.

Lemma threaded_submit_negative self all_files :
  Threaded.num_threads self < 0 → all_files ≠ [] →
  Threaded.submit self all_files = Raise ValueError.
Proof.
  intros Hn Hne. unfold Threaded.submit, Threaded.ThreadPoolExecutor.
  rewrite file_chunks_negative by done.
  case_decide; [done|]. simpl. by rewrite decide_True by lia.
Qed.

(** X4: in the lock-based program a searcher with [num_threads ≤ 0]
    scans nothing of a non-empty listing: [search_directory] returns
    [self.results] unchanged and logs one error, [ZeroDivisionError] for 0
    threads and [ValueError] for a negative number. *)
Theorem threaded_no_threads W self directory file_pattern all_files
    ret self' log :
  glob W directory file_pattern = Return all_files →
  all_files ≠ [] →
  Threaded.num_threads self ≤ 0 →
  Threaded.search_directory W self directory file_pattern ret self' log →
  ret = Threaded.results self ∧ self' = self ∧
  log = [Log ERROR (ScanFailed (if decide (Threaded.num_threads self = 0)
                                then ZeroDivisionError else ValueError))].
Proof.
  intros Hglob Hne Hn Hcall.
  assert (Threaded.submit self all_files =
          Raise (if decide (Threaded.num_threads self = 0)
                 then ZeroDivisionError else ValueError)) as Hsubmit.
  { case_decide; [by apply threaded_submit_zero|].
    apply threaded_submit_negative; [lia | done]. }
  destruct Hcall as [ret self' log Htry|e self' log Htry]; inversion Htry as
    [e' Hg|Hg|files e' Hg _ Hs|files chunks σ Hg _ Hs _ _]; subst;
    rewrite Hglob in Hg; simplify_eq; rewrite Hsubmit in Hs; by simplify_eq.
Qed.

(** X4 on the demo platform with no thread. *)
Lemma threaded_no_threads_witness :
  glob demo "old" "*.txt" = Return ["old/c.txt"%string] ∧
  ["old/c.txt"%string] ≠ [] ∧
  Threaded.num_threads (Threaded.__init__ ["Error"%string] 0) ≤ 0 ∧
  ∀ ret self' log,
    Threaded.search_directory demo (Threaded.__init__ ["Error"%string] 0)
      "old" "*.txt" ret self' log →
    ret = ∅ ∧ log = [Log ERROR (ScanFailed ZeroDivisionError)].
Proof.
  split; [reflexivity|]. split; [done|]. split; [simpl; lia|].
  intros ret self' log Hcall.
  destruct (threaded_no_threads demo (Threaded.__init__ ["Error"%string] 0)
              "old" "*.txt" ["old/c.txt"%string] ret self' log
              eq_refl ltac:(done) ltac:(simpl; lia) Hcall)
    as (Hret & _ & Hlog).
  by split.
Defined.

(** X5: in the queue-based program a searcher with a negative
    [num_processes] starts no process on a non-empty listing and returns an
    empty dictionary; it logs a [ValueError] when there are at most
    [-num_processes] files, and otherwise logs that the search finished and
    that all the files were processed. *)
Theorem multiprocess_negative_processes W self directory file_pattern
    all_files ret log out :
  glob W directory file_pattern = Return all_files →
  all_files ≠ [] →
  Multiprocess.num_processes self < 0 →
  Multiprocess.search_directory W self directory file_pattern ret log out →
  ret = ∅ ∧ out = [] ∧
  log = if decide (Z.of_nat (length all_files)
                   ≤ - Multiprocess.num_processes self)
        then [Log ERROR (ScanFailed ValueError)]
        else [Log INFO SearchFinished;
              Log INFO (FilesProcessed (length all_files))].
Proof.
  intros Hglob Hne Hn Hcall.
  pose proof (file_chunks_negative all_files _ Hn Hne) as Hchunks.
  destruct Hcall as [ret log out Htry|e log out Htry]; inversion Htry as
    [e' Hg|Hg|files e' Hg _ Hc|files chunks received Hg _ Hc Hperm]; subst;
    rewrite Hglob in Hg; simplify_eq; rewrite Hchunks in Hc;
    case_decide; simplify_eq; [|done].
  by apply Permutation_nil_r in Hperm as ->.
Qed.

(** X5 on the demo platform: three files and [-2] processes. *)
Lemma multiprocess_negative_processes_witness :
  glob demo "logs" "*.txt" =
    Return ["logs/a.txt"; "logs/b.txt"; "logs/locked.txt"]%string ∧
  ["logs/a.txt"; "logs/b.txt"; "logs/locked.txt"]%string ≠ [] ∧
  Multiprocess.num_processes
    (Multiprocess.__init__ demo ["Error"%string] (Some (-2))) < 0 ∧
  ∀ ret log out,
    Multiprocess.search_directory demo
      (Multiprocess.__init__ demo ["Error"%string] (Some (-2)))
      "logs" "*.txt" ret log out →
    ret = ∅ ∧ out = [] ∧
    log = [Log INFO SearchFinished; Log INFO (FilesProcessed 3)].
Proof.
  split; [reflexivity|]. split; [done|]. split; [by_computation|].
  intros ret log out Hcall.
  exact (multiprocess_negative_processes demo
           (Multiprocess.__init__ demo ["Error"%string] (Some (-2)))
           "logs" "*.txt"
           ["logs/a.txt"; "logs/b.txt"; "logs/locked.txt"]%string ret log out
           eq_refl ltac:(done) ltac:(by_computation) Hcall).
Defined.

(** ** What is reported *)

Lemma threaded_search_file_snd W self filepath :
  (Threaded.search_file W self filepath).2 =
  match read_text W filepath with
  | Return _ => []
  | Raise e => [Log ERROR (FileFailed filepath e)]
  end.
Proof. unfold Threaded.search_file. by destruct (read_text W filepath). Qed.

Lemma multiprocess_search_file_snd W filepath keywords :
  (Multiprocess.search_file W filepath keywords).2 =
  match read_text W filepath with
  | Return _ => []
  | Raise e => [Print (FileFailed filepath e)]
  end.
Proof. unfold Multiprocess.search_file. by destruct (read_text W filepath). Qed.

Lemma read_errors_app W report files files' :
  read_errors W report (files ++ files') =
  read_errors W report files ++ read_errors W report files'.
Proof. unfold read_errors. by rewrite fmap_app, concat_app. Qed.

Lemma multiprocess_process_files_snd W files keywords :
  (Multiprocess.process_files W files keywords).2 = read_errors W Print files.
Proof.
  unfold Multiprocess.process_files.
  assert (∀ acc,
            (foldl (λ acc filepath,
                      let file_results :=
                        Multiprocess.search_file W filepath keywords in
                      (merge_results acc.1 file_results.1,
                       acc.2 ++ file_results.2)) acc files).2 =
            acc.2 ++ read_errors W Print files) as Hgen; [|by rewrite Hgen].
  induction files as [|filepath files IH]; intros acc; simpl.
  - by rewrite app_nil_r.
  - rewrite IH. simpl. rewrite multiprocess_search_file_snd.
    unfold read_errors. simpl. by rewrite <- app_assoc.
Qed.

(** X7: a search of a non-empty listing with at least one thread logs one
    error for every file that cannot be read, in the order in which the
    threads meet them, and then that the search finished and the number of
    listed files, unreadable ones included. *)
Theorem threaded_log W self directory file_pattern all_files ret self' log :
  glob W directory file_pattern = Return all_files →
  all_files ≠ [] →
  1 ≤ Threaded.num_threads self →
  Threaded.search_directory W self directory file_pattern ret self' log →
  ∃ errors,
    log = errors ++ [Log INFO SearchFinished;
                     Log INFO (FilesProcessed (length all_files))] ∧
    errors ≡ₚ read_errors W (Log ERROR) all_files.
Proof.
  intros Hglob Hne Hn Hcall.
  destruct Hcall as [ret self' log Htry|e self' log Htry].
  - inversion Htry as
      [|Hg|files e' Hg _ Hs|files chunks σ Hg _ Hs Hrun Hjoined]; subst;
      rewrite Hglob in Hg; simplify_eq.
    exists (Threaded.logged σ). split; [done|].
    rewrite threaded_submit_pos in Hs by done.
    pose proof (concat_file_chunks _ _ _ Hn Hs) as Hconcat.
    apply process_files_steps_logged in Hrun. simpl in Hrun.
    rewrite (joined_concat σ Hjoined), Hconcat in Hrun. simpl in Hrun.
    rewrite app_nil_r in Hrun. rewrite Hrun. unfold read_errors.
    f_equiv. apply reflexive_eq, list_fmap_ext. intros _ f _.
    apply threaded_search_file_snd.
  - apply threaded_try_block_raises in Htry as (Hg & _); [|done].
    rewrite Hglob in Hg. done.
Qed.

(** X7 on the demo platform: one of the three files of [logs] cannot be read. *)
Lemma threaded_log_witness :
  glob demo "logs" "*.txt" =
    Return ["logs/a.txt"; "logs/b.txt"; "logs/locked.txt"]%string ∧
  ["logs/a.txt"; "logs/b.txt"; "logs/locked.txt"]%string ≠ [] ∧
  1 ≤ Threaded.num_threads (Threaded.__init__ ["Error"%string] 4) ∧
  ∀ ret self' log,
    Threaded.search_directory demo (Threaded.__init__ ["Error"%string] 4)
      "logs" "*.txt" ret self' log →
    log = [Log ERROR (FileFailed "logs/locked.txt" OSError);
           Log INFO SearchFinished; Log INFO (FilesProcessed 3)].
Proof.
  split; [reflexivity|]. split; [done|]. split; [by_computation|].
  intros ret self' log Hcall.
  destruct (threaded_log demo (Threaded.__init__ ["Error"%string] 4)
              "logs" "*.txt"
              ["logs/a.txt"; "logs/b.txt"; "logs/locked.txt"]%string
              ret self' log eq_refl ltac:(done) ltac:(by_computation) Hcall)
    as (errors & -> & Herrors).
  change (read_errors demo (Log ERROR)
            ["logs/a.txt"; "logs/b.txt"; "logs/locked.txt"]%string)
    with [Log ERROR (FileFailed "logs/locked.txt" OSError)] in Herrors.
  by apply Permutation_singleton_r in Herrors as ->.
Defined.

(** X8: a search of a non-empty listing with at least one process
    starts at most [num_processes] children, which print together one error
    for every file that cannot be read, in the order of the listing; the
    parent logs that the search finished and the number of listed files. *)
Theorem multiprocess_output W self directory file_pattern all_files
    ret log out :
  glob W directory file_pattern = Return all_files →
  all_files ≠ [] →
  1 ≤ Multiprocess.num_processes self →
  Multiprocess.search_directory W self directory file_pattern ret log out →
  log = [Log INFO SearchFinished;
         Log INFO (FilesProcessed (length all_files))] ∧
  Z.of_nat (length out) ≤ Multiprocess.num_processes self ∧
  concat out = read_errors W Print all_files.
Proof.
  intros Hglob Hne Hn Hcall.
  destruct Hcall as [ret log out Htry|e log out Htry]; inversion Htry as
    [e' Hg|Hg|files e' Hg _ Hc|files chunks received Hg _ Hc Hperm]; subst;
    rewrite Hglob in Hg; simplify_eq.
  - split; [done|]. split.
    + rewrite length_fmap, (length_file_chunks _ _ _ Hn Hc).
      by apply chunk_count_le.
    + apply concat_file_chunks in Hc as <-; [|done].
      clear. induction chunks as [|chunk chunks IH]; [done|].
      rewrite fmap_cons, !concat_cons, read_errors_app, IH.
      by rewrite multiprocess_process_files_snd.
  - by rewrite file_chunks_pos in Hc.
Qed.

(** X8 on the demo platform with two processes. *)
Lemma multiprocess_output_witness :
  glob demo "logs" "*.txt" =
    Return ["logs/a.txt"; "logs/b.txt"; "logs/locked.txt"]%string ∧
  ["logs/a.txt"; "logs/b.txt"; "logs/locked.txt"]%string ≠ [] ∧
  1 ≤ Multiprocess.num_processes
        (Multiprocess.__init__ demo ["Error"%string] (Some 2)) ∧
  ∀ ret log out,
    Multiprocess.search_directory demo
      (Multiprocess.__init__ demo ["Error"%string] (Some 2))
      "logs" "*.txt" ret log out →
    concat out = [Print (FileFailed "logs/locked.txt" OSError)].
Proof.
  split; [reflexivity|]. split; [done|]. split; [by_computation|].
  intros ret log out Hcall.
  exact (proj2 (proj2
           (multiprocess_output demo
              (Multiprocess.__init__ demo ["Error"%string] (Some 2))
              "logs" "*.txt"
              ["logs/a.txt"; "logs/b.txt"; "logs/locked.txt"]%string
              ret log out eq_refl ltac:(done) ltac:(by_computation) Hcall))).
Defined.

(** ** Every file is scanned once *)

Lemma process_files_step_pending W self σ σ' :
  Threaded.process_files_step W self σ σ' →
  length (concat (Threaded.pending σ)) =
  S (length (concat (Threaded.pending σ'))).
Proof.
  intros [σ0 i filepath files Hi]. simpl.
  by rewrite (concat_take_next _ _ _ _ Hi).
Qed.

(** X9: whatever the interleaving, a pool whose calls of
    [process_files] have all returned has made as many iterations as there
    are files in the chunks: every file is scanned once. *)
Theorem pool_steps_count W self chunks d log n σ :
  nsteps (Threaded.process_files_step W self) n
    {| Threaded.pending := chunks; Threaded.shared := d;
       Threaded.logged := log |} σ →
  Threaded.joined σ →
  n = length (concat chunks).
Proof.
  intros Hrun Hjoined.
  assert (∀ σ0, nsteps (Threaded.process_files_step W self) n σ0 σ →
                length (concat (Threaded.pending σ0)) = n) as Hcount.
  { clear Hrun. intros σ0 Hrun.
    induction Hrun as [σ1|k σ1 σ2 σ3 Hstep _ IH].
    - by rewrite (joined_concat σ1 Hjoined).
    - rewrite (process_files_step_pending _ _ _ _ Hstep). f_equal.
      by apply IH. }
  by rewrite <- (Hcount _ Hrun).
Qed.

(** X9 on a pool with one chunk of one file. *)
Lemma pool_steps_count_witness :
  nsteps (Threaded.process_files_step demo
            (Threaded.__init__ ["Error"%string] 4)) 1
    {| Threaded.pending := [["old/c.txt"%string]]; Threaded.shared := ∅;
       Threaded.logged := [] |}
    {| Threaded.pending := <[0%nat := []]> [["old/c.txt"%string]];
       Threaded.shared :=
         merge_results ∅
           (Threaded.search_file demo (Threaded.__init__ ["Error"%string] 4)
              "old/c.txt").1;
       Threaded.logged :=
         [] ++ (Threaded.search_file demo
                  (Threaded.__init__ ["Error"%string] 4) "old/c.txt").2 |} ∧
  1%nat = length (concat [["old/c.txt"%string]]).
Proof.
  assert (nsteps (Threaded.process_files_step demo
            (Threaded.__init__ ["Error"%string] 4)) 1
    {| Threaded.pending := [["old/c.txt"%string]]; Threaded.shared := ∅;
       Threaded.logged := [] |}
    {| Threaded.pending := <[0%nat := []]> [["old/c.txt"%string]];
       Threaded.shared :=
         merge_results ∅
           (Threaded.search_file demo (Threaded.__init__ ["Error"%string] 4)
              "old/c.txt").1;
       Threaded.logged :=
         [] ++ (Threaded.search_file demo
                  (Threaded.__init__ ["Error"%string] 4) "old/c.txt").2 |})
    as Hrun.
  { apply nsteps_once.
    exact (Threaded.process_next_file demo _
             {| Threaded.pending := [["old/c.txt"%string]];
                Threaded.shared := ∅; Threaded.logged := [] |}
             0 "old/c.txt" [] eq_refl). }
  split; [exact Hrun|].
  apply (pool_steps_count _ _ _ _ _ _ _ Hrun).
  repeat constructor.
Defined.

(** ** The two programs side by side *)

(** X10: new searchers of the two programs, with the same keywords and
    at least one worker each, return the same dictionary for the same
    directory and pattern. *)
Theorem programs_agree W (keywords : list string) n m directory file_pattern
    ret self' log ret' log' out :
  1 ≤ n → 1 ≤ m →
  Threaded.search_directory W (Threaded.__init__ keywords n)
    directory file_pattern ret self' log →
  Multiprocess.search_directory W (Multiprocess.__init__ W keywords (Some m))
    directory file_pattern ret' log' out →
  ret = ret'.
Proof.
  intros Hn Hm Hthreads Hprocesses.
  apply threaded_search_directory_ret in Hthreads as (-> & _); [|done].
  apply multiprocess_search_directory_ret in Hprocesses as ->;
    [|by rewrite multiprocess_init_num_processes].
  unfold merged. f_equal. apply list_fmap_ext. intros _ filepath _.
  unfold Threaded.search_file, Multiprocess.search_file.
  by destruct (read_text W filepath).
Qed.

(** X10 on the demo platform: four threads against two processes. *)
Lemma programs_agree_witness :
  1 ≤ 4 ∧ 1 ≤ 2 ∧
  ∀ ret self' log ret' log' out,
    Threaded.search_directory demo (Threaded.__init__ ["Error"%string] 4)
      "logs" "*.txt" ret self' log →
    Multiprocess.search_directory demo
      (Multiprocess.__init__ demo ["Error"%string] (Some 2))
      "logs" "*.txt" ret' log' out →
    ret = ret'.
Proof.
  split; [lia|]. split; [lia|].
  intros ret self' log ret' log' out.
  apply (programs_agree demo ["Error"%string] 4 2); lia.
Defined.

(** ** Searching again *)

Lemma merge_results_twice (d local : gmap string (gset string)) :
  merge_results (merge_results d local) local = merge_results d local.
Proof.
  rewrite <- merge_results_assoc. f_equal.
  apply map_eq. intros k. rewrite lookup_merge_results.
  destruct (local !! k); simpl; unfold union_sets; [|done].
  f_equal. set_solver.
Qed.

Lemma merged_twice scan d (files : list string) :
  merged scan (merged scan d files) files = merged scan d files.
Proof.
  unfold merged.
  rewrite (foldl_merge_results_acc _ (foldl _ _ _)).
  rewrite (foldl_merge_results_acc _ d).
  apply merge_results_twice.
Qed.

(** X11: searching the same directory a second time with the same
    lock-based searcher, on an unchanged platform, returns the same
    dictionary again and leaves the searcher as it was. *)
Theorem search_again W self directory file_pattern
    ret1 self1 log1 ret2 self2 log2 :
  Threaded.search_directory W self directory file_pattern ret1 self1 log1 →
  Threaded.search_directory W self1 directory file_pattern ret2 self2 log2 →
  ret2 = ret1 ∧ self2 = self1.
Proof.
  intros Hcall1 Hcall2.
  apply threaded_search_directory_any in Hcall1 as (Hret1 & Hres1 & Hk1 & Hn1).
  apply threaded_search_directory_any in Hcall2 as (Hret2 & Hres2 & Hk2 & Hn2).
  assert (ret2 = ret1) as Heq.
  { rewrite Hret2, Hres1, Hn1, Hret1.
    unfold Threaded.search_file. rewrite Hk1. apply merged_twice. }
  split; [done|].
  destruct self1, self2. simpl in *. congruence.
Qed.

(** X11 on the demo platform. *)
Lemma search_again_witness :
  ∃ ret1 self1 log1 ret2 self2 log2,
    Threaded.search_directory demo (Threaded.__init__ ["Error"%string] 4)
      "logs" "*.txt" ret1 self1 log1 ∧
    Threaded.search_directory demo self1 "logs" "*.txt" ret2 self2 log2 ∧
    ret2 = ret1 ∧ self2 = self1.
Proof.
  destruct (threaded_search_directory_total demo
              (Threaded.__init__ ["Error"%string] 4) "logs" "*.txt")
    as (ret1 & self1 & log1 & Hcall1).
  destruct (threaded_search_directory_total demo self1 "logs" "*.txt")
    as (ret2 & self2 & log2 & Hcall2).
  exists ret1, self1, log1, ret2, self2, log2.
  split; [done|]. split; [done|].
  exact (search_again demo _ "logs" "*.txt" _ _ _ _ _ _ Hcall1 Hcall2).
Defined.

(** ** Keywords that differ in case, and the empty keyword *)

Lemma occurs_lower W keyword keyword' filepath :
  lower W keyword = lower W keyword' →
  occurs W keyword filepath ↔ occurs W keyword' filepath.
Proof. intros Hlower. unfold occurs. by rewrite Hlower. Qed.

Lemma multiprocess_in_result W self directory file_pattern ret log out
    keyword filepath :
  Multiprocess.search_directory W self directory file_pattern ret log out →
  in_result ret keyword filepath ↔
  filepath ∈ scanned (Multiprocess.num_processes self)
               (listed W directory file_pattern) ∧
  keyword ∈ Multiprocess.keywords self ∧ occurs W keyword filepath.
Proof.
  intros Hcall. apply multiprocess_search_directory_any in Hcall as ->.
  apply in_result_merged_multiprocess.
Qed.

Lemma reachable_case_variants W self keyword keyword' filepath :
  reachable W self →
  lower W keyword = lower W keyword' →
  keyword ∈ Threaded.keywords self → keyword' ∈ Threaded.keywords self →
  in_result (Threaded.results self) keyword filepath ↔
  in_result (Threaded.results self) keyword' filepath.
Proof.
  intros Hreach Hlower.
  induction Hreach as [keywords n|self directory file_pattern ret self' log
                       _ IH Hcall]; intros Hk Hk'.
  - split; intros (files & Hlookup & _); simpl in Hlookup;
      by rewrite lookup_empty in Hlookup.
  - pose proof (threaded_search_directory_any _ _ _ _ _ _ _ Hcall)
      as (_ & Hself' & Hkeywords & _).
    rewrite Hkeywords in Hk, Hk'. rewrite Hself'.
    rewrite !(threaded_in_result _ _ _ _ _ _ _ _ _ Hcall).
    rewrite (IH Hk Hk'), (occurs_lower _ _ _ _ Hlower). tauto.
Qed.

(** X12: two keywords with the same lowercased form are separate
    keys of the result, with the same files under each. *)
Theorem case_variants_share_files W keyword keyword' :
  lower W keyword = lower W keyword' →
  (∀ self directory file_pattern ret self' log filepath,
     reachable W self →
     keyword ∈ Threaded.keywords self → keyword' ∈ Threaded.keywords self →
     Threaded.search_directory W self directory file_pattern ret self' log →
     in_result ret keyword filepath ↔ in_result ret keyword' filepath) ∧
  (∀ self directory file_pattern ret log out filepath,
     keyword ∈ Multiprocess.keywords self →
     keyword' ∈ Multiprocess.keywords self →
     Multiprocess.search_directory W self directory file_pattern
       ret log out →
     in_result ret keyword filepath ↔ in_result ret keyword' filepath).
Proof.
  intros Hlower. split.
  - intros self directory file_pattern ret self' log filepath Hreach Hk Hk'
      Hcall.
    pose proof (threaded_search_directory_any _ _ _ _ _ _ _ Hcall)
      as (_ & Hself' & Hkeywords & _).
    rewrite <- Hself'.
    apply (reachable_case_variants W);
      [by eapply reachable_call | done | by rewrite Hkeywords..].
  - intros self directory file_pattern ret log out filepath Hk Hk' Hcall.
    rewrite !(multiprocess_in_result _ _ _ _ _ _ _ _ _ Hcall).
    rewrite (occurs_lower _ _ _ _ Hlower). tauto.
Qed.

(** X12 on the demo platform, for [Error] and [ERROR]. *)
Lemma case_variants_share_files_witness :
  lower demo "Error" = lower demo "ERROR" ∧
  ("Error"%string ≠ "ERROR"%string) ∧
  ∀ ret log out filepath,
    Multiprocess.search_directory demo
      (Multiprocess.__init__ demo ["Error"; "ERROR"]%string None)
      "logs" "*.txt" ret log out →
    in_result ret "Error" filepath ↔ in_result ret "ERROR" filepath.
Proof.
  split; [reflexivity|]. split; [done|].
  intros ret log out filepath.
  apply (proj2 (case_variants_share_files demo "Error" "ERROR" eq_refl));
    by_computation.
Defined.

(** X13: the empty keyword, whose lowercased form is empty, is found
    in every listed file that can be read. *)
Theorem empty_keyword_matches_all W directory file_pattern all_files
    filepath text :
  lower W "" = ""%string →
  glob W directory file_pattern = Return all_files →
  filepath ∈ all_files →
  read_text W filepath = Return text →
  (∀ self ret self' log,
     ""%string ∈ Threaded.keywords self →
     1 ≤ Threaded.num_threads self →
     Threaded.search_directory W self directory file_pattern ret self' log →
     in_result ret "" filepath) ∧
  (∀ self ret log out,
     ""%string ∈ Multiprocess.keywords self →
     1 ≤ Multiprocess.num_processes self →
     Multiprocess.search_directory W self directory file_pattern
       ret log out →
     in_result ret "" filepath).
Proof.
  intros Hlower Hglob Hin Hread.
  assert (occurs W "" filepath) as Hoccurs.
  { exists text, ""%string, (lower W text). split; [done|].
    by rewrite Hlower. }
  split.
  - intros self ret self' log Hk Hn Hcall.
    apply (threaded_in_result _ _ _ _ _ _ _ _ _ Hcall). right.
    unfold scanned. by rewrite decide_True, (listed_glob _ _ _ _ Hglob).
  - intros self ret log out Hk Hn Hcall.
    apply (multiprocess_in_result _ _ _ _ _ _ _ _ _ Hcall).
    unfold scanned. by rewrite decide_True, (listed_glob _ _ _ _ Hglob).
Qed.

(** X13 on the demo platform. *)
Lemma empty_keyword_matches_all_witness :
  lower demo "" = ""%string ∧
  glob demo "logs" "*.txt" =
    Return ["logs/a.txt"; "logs/b.txt"; "logs/locked.txt"]%string ∧
  "logs/b.txt"%string ∈
    ["logs/a.txt"; "logs/b.txt"; "logs/locked.txt"]%string ∧
  read_text demo "logs/b.txt" = Return "all fine"%string ∧
  ∀ ret log out,
    Multiprocess.search_directory demo
      (Multiprocess.__init__ demo [""%string] (Some 2))
      "logs" "*.txt" ret log out →
    in_result ret "" "logs/b.txt".
Proof.
  split; [reflexivity|]. split; [reflexivity|].
  split; [by_computation|]. split; [reflexivity|].
  intros ret log out.
  apply (proj2 (empty_keyword_matches_all demo "logs" "*.txt"
                  ["logs/a.txt"; "logs/b.txt"; "logs/locked.txt"]%string
                  "logs/b.txt" "all fine" eq_refl eq_refl
                  ltac:(by_computation) eq_refl));
    by_computation.
Defined.

(** ** The prompts *)

Lemma keywords_loop_blank C text stdin :
  no_keyword C text →
  keywords_loop C [] (Line text :: stdin) =
  ((keywords_loop C [] stdin).1.1, (keywords_loop C [] stdin).1.2,
   AskKeyword :: NeedKeyword :: (keywords_loop C [] stdin).2).
Proof.
  intros Hblank. cbn [keywords_loop].
  rewrite decide_True by done. rewrite decide_True by done.
  by destruct (keywords_loop C [] stdin) as [[??]?].
Qed.

Lemma keywords_loop_word C keywords text stdin :
  ¬ no_keyword C text →
  keywords_loop C keywords (Line text :: stdin) =
  ((keywords_loop C (keywords ++ [strip C text]) stdin).1.1,
   (keywords_loop C (keywords ++ [strip C text]) stdin).1.2,
   AskKeyword :: (keywords_loop C (keywords ++ [strip C text]) stdin).2).
Proof.
  intros Hword. cbn [keywords_loop]. rewrite decide_False by done.
  by destruct (keywords_loop C _ stdin) as [[??]?].
Qed.

Lemma keywords_loop_end C keywords text stdin :
  no_keyword C text → keywords ≠ [] →
  keywords_loop C keywords (Line text :: stdin) =
  (Got keywords, stdin, [AskKeyword]).
Proof.
  intros Hblank Hne. cbn [keywords_loop].
  rewrite decide_True by done. by rewrite decide_False by done.
Qed.

Lemma keywords_loop_skip C blanks stdin :
  Forall (no_keyword C) blanks →
  keywords_loop C [] ((Line <$> blanks) ++ stdin) =
  ((keywords_loop C [] stdin).1.1, (keywords_loop C [] stdin).1.2,
   (blanks ≫= λ _, [AskKeyword; NeedKeyword]) ++
   (keywords_loop C [] stdin).2).
Proof.
  induction 1 as [|blank blanks Hblank _ IH].
  - rewrite fmap_nil, app_nil_l. cbn [mbind list_bind app].
    by destruct (keywords_loop C [] stdin) as [[??]?].
  - rewrite fmap_cons, <- app_comm_cons, keywords_loop_blank by done.
    by rewrite IH.
Qed.

Lemma keywords_loop_collect C keywords texts blank rest :
  Forall (λ text, ¬ no_keyword C text) texts →
  no_keyword C blank →
  keywords ++ (strip C <$> texts) ≠ [] →
  keywords_loop C keywords ((Line <$> texts) ++ Line blank :: rest) =
  (Got (keywords ++ (strip C <$> texts)), rest,
   replicate (length texts) AskKeyword ++ [AskKeyword]).
Proof.
  intros Htexts Hblank. revert keywords.
  induction Htexts as [|text texts Htext _ IH]; intros keywords Hne.
  - rewrite fmap_nil, app_nil_r in *. by apply keywords_loop_end.
  - rewrite !fmap_cons, <- app_comm_cons, keywords_loop_word by done.
    rewrite fmap_cons in Hne.
    rewrite IH by (by rewrite <- app_assoc).
    by rewrite <- app_assoc.
Qed.

(** X14: [get_keywords_from_user] skips the lines without a keyword
    that come first, asking again each time, then takes the stripped form of
    every line up to the first line without a keyword, which it consumes; the
    rest of the input is left. *)
Theorem get_keywords_from_user_returns C blanks texts blank rest :
  Forall (no_keyword C) blanks →
  Forall (λ text, ¬ no_keyword C text) texts →
  texts ≠ [] →
  no_keyword C blank →
  get_keywords_from_user C
    ((Line <$> blanks) ++ (Line <$> texts) ++ Line blank :: rest) =
  (Got (strip C <$> texts), rest,
   HowToEnter :: HowToFinish ::
   (blanks ≫= λ _, [AskKeyword; NeedKeyword]) ++
   replicate (length texts) AskKeyword ++ [AskKeyword]).
Proof.
  intros Hblanks Htexts Hne Hblank. unfold get_keywords_from_user.
  rewrite keywords_loop_skip by done.
  rewrite (keywords_loop_collect C [] texts blank rest) by
    (try done; by destruct texts).
  done.
Qed.

(** X14 on a blank line, two keywords, the empty line and one more line. *)
Lemma get_keywords_from_user_returns_witness :
  Forall (no_keyword demo_console) ["  "%string] ∧
  Forall (λ text, ¬ no_keyword demo_console text)
    [" Error "; "fine"]%string ∧
  [" Error "; "fine"]%string ≠ [] ∧
  no_keyword demo_console "" ∧
  get_keywords_from_user demo_console
    [Line "  "; Line " Error "; Line "fine"; Line ""; Line "logs"]%string =
  (Got ["Error"; "fine"]%string, [Line "logs"%string],
   [HowToEnter; HowToFinish; AskKeyword; NeedKeyword;
    AskKeyword; AskKeyword; AskKeyword]).
Proof.
  assert (Forall (no_keyword demo_console) ["  "%string]) as Hblanks
    by (repeat constructor).
  assert (Forall (λ text, ¬ no_keyword demo_console text)
            [" Error "; "fine"]%string) as Htexts
    by (repeat constructor; discriminate).
  assert (no_keyword demo_console "") as Hblank by reflexivity.
  split; [done|]. split; [done|]. split; [done|]. split; [done|].
  exact (get_keywords_from_user_returns demo_console ["  "%string]
           [" Error "; "fine"]%string "" [Line "logs"%string]
           Hblanks Htexts ltac:(done) Hblank).
Defined.





Lemma get_directory_from_user_got C stdin directory rest out :
  get_directory_from_user C stdin = (Got directory, rest, out) →
  directory ≠ ""%string ∧ path_exists C directory = Return true ∧
  (∃ text, Line text ∈ stdin ∧ directory = strip C text) ∧
  rest `suffix_of` stdin.
Proof.
  revert out. induction stdin as [|[text|] stdin IH]; intros out;
    cbn [get_directory_from_user]; [done| |done].
  assert (∀ out',
            (let '(r, rest', out'') := get_directory_from_user C stdin in
             (r, rest', AskDirectory :: NoSuchPath :: out''))
            = (Got directory, rest, out') →
            directory ≠ ""%string ∧ path_exists C directory = Return true ∧
            (∃ text', Line text' ∈ Line text :: stdin ∧
                      directory = strip C text') ∧
            rest `suffix_of` Line text :: stdin) as Hnext.
  { intros out'.
    destruct (get_directory_from_user C stdin) as [[r rest'] out''] eqn:Hloop.
    intros [= -> -> <-].
    destruct (IH _ eq_refl) as (? & ? & (t & ? & ?) & ?).
    split_and!; [done..| |by apply suffix_cons_r].
    exists t. split; [by right | done]. }
  destruct (decide (strip C text = ""%string)) as [Hblank|Hne];
    [apply Hnext|].
  destruct (path_exists C (strip C text)) as [[|]|e] eqn:Hexists;
    [|apply Hnext|done].
  intros [= <- <- <-].
  split_and!; [done..| |by apply suffix_cons_r].
  exists text. split; [by left | done].
Qed.

Lemma get_directory_from_user_accept C text stdin :
  strip C text ≠ ""%string → path_exists C (strip C text) = Return true →
  get_directory_from_user C (Line text :: stdin) =
  (Got (strip C text), stdin, [AskDirectory]).
Proof.
  intros Hne Hexists. cbn [get_directory_from_user].
  by rewrite decide_False, Hexists by done.
Qed.

Lemma get_directory_from_user_raise C text stdin e :
  strip C text ≠ ""%string → path_exists C (strip C text) = Raise e →
  get_directory_from_user C (Line text :: stdin) =
  (Stopped (Raised e), stdin, [AskDirectory]).
Proof.
  intros Hne Hexists. cbn [get_directory_from_user].
  by rewrite decide_False, Hexists by done.
Qed.

Lemma get_directory_from_user_refuse C text stdin :
  strip C text = ""%string ∨ path_exists C (strip C text) = Return false →
  get_directory_from_user C (Line text :: stdin) =
  ((get_directory_from_user C stdin).1.1,
   (get_directory_from_user C stdin).1.2,
   AskDirectory :: NoSuchPath :: (get_directory_from_user C stdin).2).
Proof.
  intros Hbad. cbn [get_directory_from_user].
  destruct (decide (strip C text = ""%string)) as [Hblank|Hne].
  - by destruct (get_directory_from_user C stdin) as [[??]?].
  - destruct Hbad as [Hblank | ->]; [done|].
    by destruct (get_directory_from_user C stdin) as [[??]?].
Qed.

Lemma get_directory_from_user_skip C refused stdin :
  Forall (λ text, strip C text = ""%string ∨
                  path_exists C (strip C text) = Return false) refused →
  get_directory_from_user C ((Line <$> refused) ++ stdin) =
  ((get_directory_from_user C stdin).1.1,
   (get_directory_from_user C stdin).1.2,
   (refused ≫= λ _, [AskDirectory; NoSuchPath]) ++
   (get_directory_from_user C stdin).2).
Proof.
  induction 1 as [|bad refused Hbad _ IH].
  - rewrite fmap_nil, app_nil_l. cbn [mbind list_bind app].
    by destruct (get_directory_from_user C stdin) as [[??]?].
  - rewrite fmap_cons, <- app_comm_cons.
    rewrite get_directory_from_user_refuse by done. by rewrite IH.
Qed.

(** X16: [get_directory_from_user] refuses, with a message, every line
    whose stripped form is empty or is a path that [Path.exists] reports as
    missing, and goes on to the next line.  At the first other line it
    returns the stripped form when [Path.exists] says that it exists, and
    leaves the prompt with the exception, without a message, when
    [Path.exists] raises.  Whatever it returns is non-empty and exists. *)
Theorem get_directory_from_user_returns C refused text rest :
  Forall (λ text, strip C text = ""%string ∨
                  path_exists C (strip C text) = Return false) refused →
  strip C text ≠ ""%string →
  (path_exists C (strip C text) = Return true →
   get_directory_from_user C ((Line <$> refused) ++ Line text :: rest) =
     (Got (strip C text), rest,
      (refused ≫= λ _, [AskDirectory; NoSuchPath]) ++ [AskDirectory])) ∧
  (∀ e,
     path_exists C (strip C text) = Raise e →
     get_directory_from_user C ((Line <$> refused) ++ Line text :: rest) =
       (Stopped (Raised e), rest,
        (refused ≫= λ _, [AskDirectory; NoSuchPath]) ++ [AskDirectory])) ∧
  (∀ stdin directory rest' out,
     get_directory_from_user C stdin = (Got directory, rest', out) →
     directory ≠ ""%string ∧ path_exists C directory = Return true ∧
     ∃ text', Line text' ∈ stdin ∧ directory = strip C text').
Proof.
  intros Hrefused Hne. split_and!.
  - intros Hexists. rewrite get_directory_from_user_skip by done.
    by rewrite get_directory_from_user_accept.
  - intros e Hexists. rewrite get_directory_from_user_skip by done.
    by rewrite (get_directory_from_user_raise _ _ _ e).
  - intros stdin directory rest' out Hgot.
    destruct (get_directory_from_user_got _ _ _ _ _ Hgot) as (? & ? & ? & _).
    done.
Qed.

(** X16 on a blank line and a missing path, followed by an existing path
    or by a path that cannot be examined. *)
Lemma get_directory_from_user_returns_witness :
  Forall (λ text, strip demo_console text = ""%string ∨
                  path_exists demo_console (strip demo_console text)
                  = Return false)
    [" "; "missing"]%string ∧
  strip demo_console " logs " ≠ ""%string ∧
  path_exists demo_console (strip demo_console " logs ") = Return true ∧
  get_directory_from_user demo_console
    [Line " "; Line "missing"; Line " logs "; Line "later"]%string =
  (Got "logs"%string, [Line "later"%string],
   [AskDirectory; NoSuchPath; AskDirectory; NoSuchPath; AskDirectory]) ∧
  strip demo_console "sealed/logs" ≠ ""%string ∧
  path_exists demo_console (strip demo_console "sealed/logs")
    = Raise OSError ∧
  get_directory_from_user demo_console
    [Line " "; Line "missing"; Line "sealed/logs"; Line "logs"]%string =
  (Stopped (Raised OSError), [Line "logs"%string],
   [AskDirectory; NoSuchPath; AskDirectory; NoSuchPath; AskDirectory]).
Proof.
  assert (Forall (λ text, strip demo_console text = ""%string ∨
                   path_exists demo_console (strip demo_console text)
                   = Return false)
            [" "; "missing"]%string) as Hrefused
    by (constructor; [by left | constructor; [by right | constructor]]).
  split; [done|]. split; [discriminate|]. split; [reflexivity|].
  split.
  { exact (proj1 (get_directory_from_user_returns demo_console
                    [" "; "missing"]%string " logs " [Line "later"%string]
                    Hrefused ltac:(discriminate)) eq_refl). }
  split; [discriminate|]. split; [reflexivity|].
  exact (proj1 (proj2 (get_directory_from_user_returns demo_console
                         [" "; "missing"]%string "sealed/logs"
                         [Line "logs"%string] Hrefused ltac:(discriminate)))
           OSError eq_refl).
Defined.

(** ** The report of the results *)

Lemma any_values_true (results : gmap string (gset string)) :
  any_values results = true ↔
  ∃ keyword files, results !! keyword = Some files ∧ files ≠ ∅.
Proof.
  unfold any_values. rewrite existsb_exists. split.
  - intros ([k files] & Hin%list_elem_of_In%elem_of_map_to_list & Hne).
    exists k, files. split; [done|].
    by apply negb_true_iff, bool_decide_eq_false in Hne.
  - intros (k & files & Hlookup & Hne). exists (k, files). split.
    + by apply list_elem_of_In, elem_of_map_to_list.
    + by apply negb_true_iff, bool_decide_eq_false.
Qed.

Lemma any_values_false (results : gmap string (gset string)) :
  no_empty_entry results → any_values results = false ↔ results = ∅.
Proof.
  intros Hne. rewrite <- not_true_iff_false, any_values_true. split.
  - intros Hnone. apply map_empty. intros k.
    destruct (results !! k) as [files|] eqn:Hlookup; [|done].
    destruct Hnone. exists k, files. split; [done|]. by eapply Hne.
  - intros -> (k & files & Hlookup & _). by rewrite lookup_empty in Hlookup.
Qed.

Lemma elem_of_blocks items blocks line :
  Forall2 keyword_block items blocks →
  line ∈ concat blocks ↔
  ∃ item, item ∈ items ∧ item.2 ≠ ∅ ∧
          (line = KeywordHeader item.1 ∨
           ∃ file, file ∈ item.2 ∧ line = FileLine file).
Proof.
  induction 1 as [|item block items blocks Hblock _ IH].
  - split; [by intros ?%elem_of_nil|].
    by intros (item & ?%elem_of_nil & _).
  - rewrite concat_cons, elem_of_app, IH. unfold keyword_block in Hblock.
    split.
    + intros [Hline|(item' & ? & ?)].
      * destruct (decide (item.2 = ∅)) as [|Hne];
          [subst block; by apply elem_of_nil in Hline|].
        destruct Hblock as (files & Hperm & ->).
        exists item. split; [by left|]. split; [done|].
        apply elem_of_cons in Hline as [->|Hline]; [by left|]. right.
        apply list_elem_of_fmap in Hline as (file & -> & Hfile).
        exists file. split; [|done].
        rewrite Hperm in Hfile. by apply elem_of_elements.
      * exists item'. split; [by right | done].
    + intros (item' & [->|Hin]%elem_of_cons & Hne & Hline).
      * left. rewrite decide_False in Hblock by done.
        destruct Hblock as (files & Hperm & ->).
        destruct Hline as [->|(file & Hfile & ->)]; [by left|]. right.
        apply list_elem_of_fmap. exists file. split; [done|].
        rewrite Hperm. by apply elem_of_elements.
      * right. by exists item'.
Qed.

Lemma elem_of_results_loop results report line :
  results_loop results report →
  line ∈ report ↔
  ∃ keyword files,
    results !! keyword = Some files ∧ files ≠ ∅ ∧
    (line = KeywordHeader keyword ∨
     ∃ file, file ∈ files ∧ line = FileLine file).
Proof.
  intros (items & blocks & Hperm & Hblocks & ->).
  rewrite (elem_of_blocks _ _ _ Hblocks). split.
  - intros ([k files] & Hin & ? & ?). exists k, files.
    rewrite Hperm in Hin. by apply elem_of_map_to_list in Hin.
  - intros (k & files & Hlookup & ? & ?). exists (k, files).
    split; [|done]. rewrite Hperm. by apply elem_of_map_to_list.
Qed.


Lemma results_empty_iff (results : gmap string (gset string)) :
  no_empty_entry results →
  results = ∅ ↔ ∀ keyword file, ¬ in_result results keyword file.
Proof.
  intros Hne. split.
  - intros -> k f (files & Hlookup & _). by rewrite lookup_empty in Hlookup.
  - intros Hnone. apply map_empty. intros k.
    destruct (results !! k) as [files|] eqn:Hlookup; [|done].
    destruct (set_choose_L files) as [f Hf]; [by eapply Hne|].
    destruct (Hnone k f). by exists files.
Qed.

Lemma elem_of_dom_in_result (results : gmap string (gset string)) keyword :
  no_empty_entry results →
  keyword ∈ dom results ↔ ∃ file, in_result results keyword file.
Proof.
  intros Hne. rewrite elem_of_dom. split.
  - intros [files Hlookup].
    destruct (set_choose_L files) as [f Hf]; [by eapply Hne|].
    exists f, files. done.
  - intros (f & files & Hlookup & _). eauto.
Qed.

Lemma reports_equiv (results : gmap string (gset string)) report :
  no_empty_entry results →
  ThreadedProgram.report_results results report ↔
  MultiprocessProgram.report_results results report.
Proof.
  intros Hne.
  unfold ThreadedProgram.report_results, MultiprocessProgram.report_results.
  pose proof (any_values_false results Hne) as Hany.
  destruct (any_values results) eqn:Hvalues.
  - assert (results ≠ ∅) as Hresults by (intros ?%Hany; done).
    by rewrite decide_False by done.
  - assert (results = ∅) as -> by by apply Hany.
    by rewrite decide_True by done.
Qed.

Lemma report_results_content (results : gmap string (gset string)) report :
  no_empty_entry results →
  ThreadedProgram.report_results results report →
  (NothingFound ∈ report ↔
   ∀ keyword file, ¬ in_result results keyword file) ∧
  (∀ keyword, KeywordHeader keyword ∈ report ↔
              ∃ file, in_result results keyword file) ∧
  (∀ file, FileLine file ∈ report ↔
           ∃ keyword, in_result results keyword file).
Proof.
  intros Hne. unfold ThreadedProgram.report_results.
  rewrite <- (results_empty_iff results Hne).
  setoid_rewrite <- (elem_of_dom_in_result results _ Hne).
  pose proof (any_values_false results Hne) as Hany.
  destruct (any_values results) eqn:Hvalues.
  - assert (results ≠ ∅) as Hresults by (intros ?%Hany; done).
    intros Hloop. split_and!.
    + rewrite (elem_of_results_loop _ _ _ Hloop). split; [|done].
      by intros (k & files & _ & _ & [?|(? & _ & ?)]).
    + intros keyword. rewrite (elem_of_results_loop _ _ _ Hloop).
      rewrite elem_of_dom. split.
      * intros (k & files & ? & _ & [[= ->]|(? & _ & ?)]); [eauto | done].
      * intros [files Hlookup]. exists keyword, files.
        split; [done|]. split; [by eapply Hne | by left].
    + intros file. rewrite (elem_of_results_loop _ _ _ Hloop). split.
      * intros (k & files & ? & _ & [?|(f & ? & [= ->])]); [done|].
        exists k, files. done.
      * intros (k & files & Hlookup & Hfile). exists k, files.
        split; [done|]. split; [by eapply Hne|]. right. eauto.
  - assert (results = ∅) as -> by by apply Hany.
    intros ->. split_and!.
    + split; [done | intros _; by left].
    + intros keyword. rewrite dom_empty_L. split.
      * by intros [?|?%elem_of_nil]%elem_of_cons.
      * by intros ?%elem_of_empty.
    + intros file. split.
      * by intros [?|?%elem_of_nil]%elem_of_cons.
      * intros (k & files & Hlookup & _). by rewrite lookup_empty in Hlookup.
Qed.

(** X17: on a dictionary without empty sets, as [search_directory]
    returns them, the test [not any(results.values())] of the first [main]
    and the test [not results] of the second lead to the same report:
    "nothing found" exactly when no file is in the dictionary, a header for
    exactly the keywords that have a file, and a line for exactly the files
    in the dictionary. *)
Theorem reports_agree (results : gmap string (gset string)) report :
  no_empty_entry results →
  (ThreadedProgram.report_results results report ↔
   MultiprocessProgram.report_results results report) ∧
  (ThreadedProgram.report_results results report →
   (NothingFound ∈ report ↔
    ∀ keyword file, ¬ in_result results keyword file) ∧
   (∀ keyword, KeywordHeader keyword ∈ report ↔
               ∃ file, in_result results keyword file) ∧
   (∀ file, FileLine file ∈ report ↔
            ∃ keyword, in_result results keyword file)).
Proof.
  intros Hne. split.
  - by apply reports_equiv.
  - by apply report_results_content.
Qed.

(** X17 on a dictionary with one keyword and one file. *)
Lemma reports_agree_witness :
  no_empty_entry {[ "Error"%string := {[ "logs/a.txt"%string ]} ]} ∧
  (ThreadedProgram.report_results
     {[ "Error"%string := {[ "logs/a.txt"%string ]} ]}
     [KeywordHeader "Error"; FileLine "logs/a.txt"] ↔
   MultiprocessProgram.report_results
     {[ "Error"%string := {[ "logs/a.txt"%string ]} ]}
     [KeywordHeader "Error"; FileLine "logs/a.txt"]).
Proof.
  assert (no_empty_entry {[ "Error"%string := {[ "logs/a.txt"%string ]} ]})
    as Hne.
  { intros k files [_ <-]%lookup_singleton_Some.
    apply non_empty_singleton_L. }
  split; [exact Hne|].
  exact (proj1 (reports_agree _ _ Hne)).
Defined.

(** ** [main] from the prompts to the report *)
















(** ** Splitting and reordering the files *)

Lemma merged_app scan d (files files' : list string) :
  merged scan d (files ++ files') =
  merge_results (merged scan d files) (merged scan ∅ files').
Proof.
  unfold merged. rewrite fmap_app, foldl_app.
  apply foldl_merge_results_acc.
Qed.

(** X21: in the queue-based program [process_files] on two lists of
    files one after the other puts on the queue the merge of what it puts for
    each, and prints what it prints for the first followed by what it prints
    for the second; on no file it puts an empty dictionary. *)
Theorem process_files_app W (files files' : list string) keywords :
  (Multiprocess.process_files W (files ++ files') keywords).1 =
    merge_results (Multiprocess.process_files W files keywords).1
                  (Multiprocess.process_files W files' keywords).1 ∧
  (Multiprocess.process_files W (files ++ files') keywords).2 =
    (Multiprocess.process_files W files keywords).2 ++
    (Multiprocess.process_files W files' keywords).2 ∧
  Multiprocess.process_files W [] keywords = (∅, []).
Proof.
  split_and!.
  - rewrite !multiprocess_process_files_fst. apply merged_app.
  - rewrite !multiprocess_process_files_snd. apply read_errors_app.
  - done.
Qed.

Lemma merged_perm scan d (files files' : list string) :
  files ≡ₚ files' → merged scan d files = merged scan d files'.
Proof.
  intros Hperm. unfold merged. apply foldl_merge_results_perm.
  by apply fmap_Permutation.
Qed.

(** X22: the dictionary returned does not depend on the order in
    which the directory listing gives the files. *)
Theorem listing_order_irrelevant W listing (keywords : list string)
    directory file_pattern all_files all_files' :
  glob W directory file_pattern = Return all_files →
  listing directory file_pattern = Return all_files' →
  all_files ≡ₚ all_files' →
  (∀ n ret self' log ret' self'' log',
     1 ≤ n →
     Threaded.search_directory W (Threaded.__init__ keywords n)
       directory file_pattern ret self' log →
     Threaded.search_directory (with_glob W listing)
       (Threaded.__init__ keywords n)
       directory file_pattern ret' self'' log' →
     ret = ret') ∧
  (∀ n ret log out ret' log' out',
     1 ≤ n →
     Multiprocess.search_directory W
       (Multiprocess.__init__ W keywords (Some n))
       directory file_pattern ret log out →
     Multiprocess.search_directory (with_glob W listing)
       (Multiprocess.__init__ W keywords (Some n))
       directory file_pattern ret' log' out' →
     ret = ret').
Proof.
  intros Hglob Hlisting Hperm. split.
  - intros n ret self' log ret' self'' log' Hn Hcall Hcall'.
    apply threaded_search_directory_ret in Hcall as (-> & _); [|done].
    apply threaded_search_directory_ret in Hcall' as (-> & _); [|done].
    rewrite (listed_glob _ _ _ _ Hglob).
    rewrite (listed_glob (with_glob W listing) _ _ all_files') by done.
    by apply merged_perm.
  - intros n ret log out ret' log' out' Hn Hcall Hcall'.
    apply multiprocess_search_directory_ret in Hcall as ->;
      [|by rewrite multiprocess_init_num_processes].
    apply multiprocess_search_directory_ret in Hcall' as ->;
      [|by rewrite multiprocess_init_num_processes].
    rewrite (listed_glob _ _ _ _ Hglob).
    rewrite (listed_glob (with_glob W listing) _ _ all_files') by done.
    by apply merged_perm.
Qed.

(** X22 on the demo platform with the first two files swapped. *)
Lemma listing_order_irrelevant_witness :
  glob demo "logs" "*.txt" =
    Return ["logs/a.txt"; "logs/b.txt"; "logs/locked.txt"]%string ∧
  (λ _ _ : string,
     Return ["logs/b.txt"; "logs/a.txt"; "logs/locked.txt"]%string)
    "logs"%string "*.txt"%string =
    Return ["logs/b.txt"; "logs/a.txt"; "logs/locked.txt"]%string ∧
  ["logs/a.txt"; "logs/b.txt"; "logs/locked.txt"]%string ≡ₚ
  ["logs/b.txt"; "logs/a.txt"; "logs/locked.txt"]%string ∧
  ∀ ret log out ret' log' out',
    Multiprocess.search_directory demo
      (Multiprocess.__init__ demo ["Error"%string] (Some 2))
      "logs" "*.txt" ret log out →
    Multiprocess.search_directory
      (with_glob demo
         (λ _ _, Return ["logs/b.txt"; "logs/a.txt"; "logs/locked.txt"]%string))
      (Multiprocess.__init__ demo ["Error"%string] (Some 2))
      "logs" "*.txt" ret' log' out' →
    ret = ret'.
Proof.
  split; [reflexivity|]. split; [reflexivity|]. split; [apply perm_swap|].
  intros ret log out ret' log' out'.
  apply (proj2 (listing_order_irrelevant demo
                  (λ _ _, Return ["logs/b.txt"; "logs/a.txt";
                                  "logs/locked.txt"]%string)
                  ["Error"%string] "logs" "*.txt" _ _
                  eq_refl eq_refl (perm_swap _ _ _)) 2).
  lia.
Defined.
